(** * xdigest: the Twitter fetcher (src/twitter_fetcher.py)

    A shallow embedding of [TwitterFetcher]: the per-account fetch with its
    retry loop and age filter ([get_user_tweets]), the self-reply thread
    detection, hydration and merging ([_merge_threads],
    [_fallback_thread_from_batch]) and the batch driver
    ([fetch_multiple_accounts]); and of its caller in src/main.py, as far
    as it configures the fetcher ([_setup_components]) and stores its
    statistics ([_save_stats]).

    Conventions.
    - Python [dict]s that are only looked up are [gmap]s; [reply_to_parent],
      whose [items()] order is observable, is an insertion-ordered
      association list; Python [set]s are [gset]s.
    - The remote client is an oracle handed to the functions; sleeps and
      remote calls are recorded in a trace of events.
    - Exceptions are carried by their text ([str(e)]), which is all the
      source looks at.
    - Strings are byte strings; comparing them byte by byte orders UTF-8
      text as Python orders it by code point. *)

From Stdlib Require Import ZArith Lia List Ascii String Permutation Sorted.
From stdpp Require Import gmap strings list fin_maps.

Local Open Scope string_scope.
Local Open Scope list_scope.
Local Open Scope Z_scope.
Set Warnings "-clear-no-such-hyp".

(** ** Insertion-ordered dictionary (the Python dict [reply_to_parent]) *)

Module OD.

Definition t := list (string * string).

Fixpoint get (k : string) (d : t) : option string :=
  match d with
  | [] => None
  | (k', v') :: d' => if decide (k = k') then Some v' else get k d'
  end.

(** [d[k] = v]: an existing key keeps its position, a new one goes last. *)
Fixpoint set (k v : string) (d : t) : t :=
  match d with
  | [] => [(k, v)]
  | (k', v') :: d' =>
      if decide (k = k') then (k, v) :: d' else (k', v') :: set k v d'
  end.

Definition keys (d : t) : gset string := list_to_set (d.*1).

End OD.

(** ** The parent walk

    [[
      while root in reply_to_parent and root not in visited:
          visited.add(root)
          root = reply_to_parent[root]
    ]]
    The walk returns the id it stops at, the final [visited] set and the
    number of [reply_to_parent[root]] lookups the loop made.  [fuel] bounds
    the iterations; [walk_fuel_enough] shows that the number of edges is
    always enough. *)

Record walk_end := WalkEnd {
  we_root : string;
  we_visited : gset string;
  we_lookups : nat
}.

Fixpoint walk (fuel : nat) (rtp : OD.t) (visited : gset string) (root : string)
  : option walk_end :=
  match OD.get root rtp with
  | Some next =>
      if decide (root ∈ visited) then Some (WalkEnd root visited 0)
      else match fuel with
           | O => None
           | S fuel' =>
               match walk fuel' rtp ({[root]} ∪ visited) next with
               | Some e => Some (WalkEnd (we_root e) (we_visited e) (S (we_lookups e)))
               | None => None
               end
           end
  | None => Some (WalkEnd root visited 0)
  end.

(** The walk as the callers use it; the default is never taken, see
    [find_root_walk]. *)
Definition find_root (rtp : OD.t) (visited : gset string) (start : string) : string :=
  match walk (length rtp) rtp visited start with
  | Some e => we_root e
  | None => start
  end.

(** The three places that resolve the root of an edge [child -> parent]
    start the walk at [parent] with [visited = {child}]. *)
Definition resolve_edge (rtp : OD.t) (child parent : string) : string :=
  find_root rtp {[child]} parent.

(** The rebuild loop starts at the post's own id with [visited = set()]. *)
Definition resolve_id (rtp : OD.t) (tweet_id : string) : string :=
  find_root rtp ∅ tweet_id.

(** ** Strings *)

(** [needle in hay] on Python strings. *)
Fixpoint str_contains (needle hay : string) : bool :=
  String.prefix needle hay ||
  match hay with
  | EmptyString => false
  | String _ hay' => str_contains needle hay'
  end.

(** [s.split('/')[-1]]: what follows the last slash, the whole string when
    there is none.  [acc] is the segment read so far. *)
Fixpoint last_segment_from (acc s : string) : string :=
  match s with
  | EmptyString => acc
  | String c s' =>
      if Ascii.eqb c "/" then last_segment_from "" s'
      else last_segment_from (acc +:+ String c "") s'
  end.

Definition last_segment (s : string) : string := last_segment_from "" s.

Definition newline : string := String (ascii_of_nat 10) "".

(** The separator of [_merge_threads]: a line of three dashes. *)
Definition thread_separator : string := newline +:+ "---" +:+ newline.

(** [f'https://twitter.com/{username}/status/{id}'] *)
Definition status_url (username tweet_id : string) : string :=
  "https://twitter.com/" +:+ username +:+ "/status/" +:+ tweet_id.

(** ** Time

    Instants and wall-clock readings are counted in microseconds, the
    resolution of Python's [datetime]; an instant is measured from
    1970-01-01T00:00:00 UTC. *)

Definition us_per_second : Z := 1000000.
Definition us_per_hour : Z := 3600 * us_per_second.

(** A [datetime] object: its wall-clock reading and, when it is aware, its
    offset from UTC ([tzinfo]). *)
Record datetime := Datetime {
  dt_wall : Z;
  dt_utcoffset : option Z
}.

(** [tweet.created_at]: missing or [None], a [datetime], or a string. *)
Inductive raw_time :=
| RT_none
| RT_datetime (d : datetime)
| RT_str (s : string).

(** [raw_time if raw_time.tzinfo else raw_time.replace(tzinfo=timezone.utc)],
    as the instant the resulting aware datetime denotes. *)
Definition datetime_instant (d : datetime) : Z :=
  match dt_utcoffset d with
  | Some off => dt_wall d - off
  | None => dt_wall d
  end.

(** Days since 1970-01-01 to the proleptic Gregorian (year, month, day), the
    calendar [datetime] uses. *)
Definition civil_from_days (days : Z) : Z * Z * Z :=
  let z := days + 719468 in
  let era := z / 146097 in
  let doe := z - era * 146097 in
  let yoe := (doe - doe / 1460 + doe / 36524 - doe / 146096) / 365 in
  let doy := doe - (365 * yoe + yoe / 4 - yoe / 100) in
  let mp := (5 * doy + 2) / 153 in
  let d := doy - (153 * mp + 2) / 5 + 1 in
  let m := if mp <? 10 then mp + 3 else mp - 9 in
  let y := yoe + era * 400 + (if m <=? 2 then 1 else 0) in
  (y, m, d).

Definition digit_char (n : Z) : ascii :=
  match n mod 10 with
  | 0 => "0" | 1 => "1" | 2 => "2" | 3 => "3" | 4 => "4"
  | 5 => "5" | 6 => "6" | 7 => "7" | 8 => "8" | _ => "9"
  end%char.

Definition pad2 (n : Z) : string :=
  String (digit_char (n / 10)) (String (digit_char n) "").

Definition pad4 (n : Z) : string :=
  String (digit_char (n / 1000)) (String (digit_char (n / 100)) (pad2 n)).

(** [strftime("%Y-%m-%d %H:%M")] of a wall-clock reading (years 1000 to 9999,
    where [%Y] has four digits). *)
Definition strftime_ymd_hm (wall : Z) : string :=
  let secs := wall / us_per_second in
  let '(y, m, d) := civil_from_days (secs / 86400) in
  let sod := secs mod 86400 in
  pad4 y +:+ "-" +:+ pad2 m +:+ "-" +:+ pad2 d +:+ " " +:+
  pad2 (sod / 3600) +:+ ":" +:+ pad2 (sod mod 3600 / 60).

(** [tweet_time.astimezone(timezone(timedelta(hours=8)))
       .strftime("%Y-%m-%d %H:%M")] *)
Definition beijing_time_str (instant : Z) : string :=
  strftime_ymd_hm (instant + 8 * us_per_hour).

Definition is_digit (c : ascii) : bool :=
  let n := nat_of_ascii c in (48 <=? n)%nat && (n <=? 57)%nat.


(** ** Data *)

(** A raw tweet as the client returns it: the attributes the fetcher reads.
    [tw_retweeted_tweet] is [hasattr(tweet, 'retweeted_tweet') and
    tweet.retweeted_tweet]; the counts are [None] when the attribute is
    missing; [tw_in_reply_to_tweet_id] is [None] when the attribute is
    missing or [None]; [tw_legacy_reply_user] is
    [tweet._data['legacy']['in_reply_to_user_id_str']] when all of it
    exists; [tw_user_id] is [tweet.user.id].  Ids are strings, as the
    client gives them.  Every tweet has a [text] (line 109 reads it without
    a guard) and a [user]. *)
Record Tweet := {
  tw_id : string;
  tw_text : string;
  tw_created_at : raw_time;
  tw_favorite_count : option Z;
  tw_retweet_count : option Z;
  tw_retweeted_tweet : bool;
  tw_in_reply_to_tweet_id : option string;
  tw_legacy_reply_user : option string;
  tw_user_id : string
}.

(** The dictionary built for each kept tweet.  The keys [is_thread] and
    [thread_length] exist on merged entries only. *)
Record Post := {
  username : string;
  text : string;
  created_at : string;
  likes : Z;
  retweets : Z;
  url : string;
  is_thread : option bool;
  thread_length : option nat
}.

(** [self.stats] *)
Record Stats := {
  total_accounts : nat;
  successful_accounts : nat;
  failed_accounts : nat;
  total_tweets : nat;
  filtered_old_tweets : nat;
  threads_detected : nat;
  errors : list string
}.

Definition empty_stats : Stats :=
  {| total_accounts := 0; successful_accounts := 0; failed_accounts := 0;
     total_tweets := 0; filtered_old_tweets := 0; threads_detected := 0;
     errors := [] |}.

(** The constructor arguments the claims depend on. *)
Record Config := {
  request_delay : Z;
  retry_on_rate_limit : bool;
  max_retries : Z;
  max_tweet_age_hours : Z;
  enable_thread_merging : bool;
  max_thread_fetches : Z
}.

(** [TwitterFetcher()] with the defaults of [__init__]. *)
Definition default_config : Config :=
  {| request_delay := 5; retry_on_rate_limit := true; max_retries := 3;
     max_tweet_age_hours := 9; enable_thread_merging := true;
     max_thread_fetches := 3 |}.

(** What the run does to the outside: [asyncio.sleep], the timeline request
    of one attempt ([get_user_by_screen_name] then [get_tweets]) and
    [get_tweet_by_id]. *)
Inductive event :=
| EvSleep (seconds : Z)
| EvGetTweets (user : string) (count : Z)
| EvGetTweetById (tweet_id : string).

(** The mutable state a call works on: the statistics and the events so
    far, oldest first. *)
Record State := {
  stats : Stats;
  trace : list event
}.

Definition emit (ev : list event) (st : State) : State :=
  {| stats := stats st; trace := trace st ++ ev |}.

Definition with_stats (f : Stats → Stats) (st : State) : State :=
  {| stats := f (stats st); trace := trace st |}.

Definition add_filtered (n : nat) (s : Stats) : Stats :=
  {| total_accounts := total_accounts s;
     successful_accounts := successful_accounts s;
     failed_accounts := failed_accounts s;
     total_tweets := total_tweets s;
     filtered_old_tweets := (filtered_old_tweets s + n)%nat;
     threads_detected := threads_detected s;
     errors := errors s |}.

Definition add_thread_detected (s : Stats) : Stats :=
  {| total_accounts := total_accounts s;
     successful_accounts := successful_accounts s;
     failed_accounts := failed_accounts s;
     total_tweets := total_tweets s;
     filtered_old_tweets := filtered_old_tweets s;
     threads_detected := (threads_detected s + 1)%nat;
     errors := errors s |}.

Definition add_success (n : nat) (s : Stats) : Stats :=
  {| total_accounts := total_accounts s;
     successful_accounts := (successful_accounts s + 1)%nat;
     failed_accounts := failed_accounts s;
     total_tweets := (total_tweets s + n)%nat;
     filtered_old_tweets := filtered_old_tweets s;
     threads_detected := threads_detected s;
     errors := errors s |}.

Definition add_failure (msg : string) (s : Stats) : Stats :=
  {| total_accounts := total_accounts s;
     successful_accounts := successful_accounts s;
     failed_accounts := (failed_accounts s + 1)%nat;
     total_tweets := total_tweets s;
     filtered_old_tweets := filtered_old_tweets s;
     threads_detected := threads_detected s;
     errors := errors s ++ [msg] |}.

Definition set_total_accounts (n : nat) (s : Stats) : Stats :=
  {| total_accounts := n;
     successful_accounts := successful_accounts s;
     failed_accounts := failed_accounts s;
     total_tweets := total_tweets s;
     filtered_old_tweets := filtered_old_tweets s;
     threads_detected := threads_detected s;
     errors := errors s |}.

(** The answer of [client.get_tweet_by_id(root_id)]: an exception, or a
    tweet whose [thread] is missing/[None] or a list; an entry of the list
    is its text, [None] when the entry has no [text] attribute. *)
Inductive thread_reply :=
| TR_raise (msg : string)
| TR_tweet (thread : option (list (option string))).

(** The answer of the timeline request of one attempt: an exception, or
    the tweets together with what [get_tweet_by_id] answers during that
    attempt. *)
Inductive fetch_reply :=
| FR_raise (msg : string)
| FR_tweets (tweets : list Tweet) (thread_api : string → thread_reply).

(** ** Sorting as [list.sort(key=...)] does

    The key of [_fallback_thread_from_batch] is the raw [created_at], the
    empty string when it is missing or falsy.  [<] is defined between two
    strings, two naive datetimes and two aware datetimes; on any other pair
    it raises [TypeError] ([None] here). *)

Inductive sort_key :=
| K_str (s : string)
| K_datetime (d : datetime).

Definition created_at_key (t : Tweet) : sort_key :=
  match tw_created_at t with
  | RT_none => K_str ""
  | RT_str s => K_str s
  | RT_datetime d => K_datetime d
  end.

Definition key_lt (a b : sort_key) : option bool :=
  match a, b with
  | K_str s1, K_str s2 => Some (String.ltb s1 s2)
  | K_datetime d1, K_datetime d2 =>
      match dt_utcoffset d1, dt_utcoffset d2 with
      | None, None => Some (dt_wall d1 <? dt_wall d2)
      | Some o1, Some o2 => Some (dt_wall d1 - o1 <? dt_wall d2 - o2)
      | _, _ => None
      end
  | _, _ => None
  end.

(** A stable sort: [x], which came before everything in [l], goes in front
    of the first entry that is not smaller than it. *)
Fixpoint sort_insert {A} (key : A → sort_key) (x : A) (l : list A)
  : option (list A) :=
  match l with
  | [] => Some [x]
  | y :: l' =>
      match key_lt (key y) (key x) with
      | None => None
      | Some true =>
          match sort_insert key x l' with
          | Some r => Some (y :: r)
          | None => None
          end
      | Some false => Some (x :: y :: l')
      end
  end.

Fixpoint py_sort {A} (key : A → sort_key) (l : list A) : option (list A) :=
  match l with
  | [] => Some []
  | x :: l' =>
      match py_sort key l' with
      | Some r => sort_insert key x r
      | None => None
      end
  end.

(** Truthiness of an optional string: [None] and [''] are falsy. *)
Definition truthy (o : option string) : bool :=
  match o with
  | Some s => negb (String.eqb s "")
  | None => false
  end.

(** ** Reading a trace *)

Definition is_timeline_request (ev : event) : bool :=
  match ev with EvGetTweets _ _ => true | _ => false end.

Definition is_thread_request (ev : event) : bool :=
  match ev with EvGetTweetById _ => true | _ => false end.

(** [get_tweet_by_id(root_id)] returned a tweet. *)
Definition answered (thread_api : string → thread_reply) (root_id : string)
  : bool :=
  match thread_api root_id with TR_tweet _ => true | TR_raise _ => false end.

(** The events of the failed attempts [attempt], [attempt + 1], ... of the
    retry loop: each is the timeline request, what the processing of its
    answer did, and the backoff sleep. *)
Fixpoint retry_rounds (user : string) (count : Z) (attempt : nat)
    (rounds : list (list event)) : list event :=
  match rounds with
  | [] => []
  | evs :: rounds' =>
      EvGetTweets user count :: evs
      ++ EvSleep ((Z.of_nat attempt + 1) * 30)
      :: retry_rounds user count (S attempt) rounds'
  end.

(** ** A strict reading of the two time formats

    [strptime] itself belongs to the Python library and is a parameter of
    the fetcher below.  The two functions here read the canonical,
    fixed-width spelling of each format; they serve to run the fetcher on
    sample batches. *)

Definition digit_value (c : ascii) : option Z :=
  if is_digit c then Some (Z.of_nat (nat_of_ascii c) - 48) else None.

Fixpoint number_from (acc : Z) (s : string) : option Z :=
  match s with
  | EmptyString => Some acc
  | String c s' =>
      match digit_value c with
      | Some d => number_from (10 * acc + d) s'
      | None => None
      end
  end.

(** The digits of [s] from position [pos], [len] of them. *)
Definition field (pos len : nat) (s : string) : option Z :=
  let f := String.substring pos len s in
  if (String.length f =? len)%nat then number_from 0 f else None.

Definition char_at (pos : nat) (c : ascii) (s : string) : bool :=
  match String.get pos s with
  | Some c' => Ascii.eqb c c'
  | None => false
  end.

Definition is_leap (y : Z) : bool :=
  ((y mod 4 =? 0) && negb (y mod 100 =? 0)) || (y mod 400 =? 0).

Definition days_in_month (y m : Z) : Z :=
  if m =? 2 then (if is_leap y then 29 else 28)
  else if (m =? 4) || (m =? 6) || (m =? 9) || (m =? 11) then 30 else 31.

(** The inverse of [civil_from_days]. *)
Definition days_from_civil (y m d : Z) : Z :=
  let y' := if m <=? 2 then y - 1 else y in
  let era := y' / 400 in
  let yoe := y' - era * 400 in
  let doy := (153 * (if 2 <? m then m - 3 else m + 9) + 2) / 5 + d - 1 in
  let doe := yoe * 365 + yoe / 4 - yoe / 100 + doy in
  era * 146097 + doe - 719468.

(** The wall-clock reading of a valid date and time of day. *)
Definition wall_clock (y m d hh mm ss : Z) : option Z :=
  if (1 <=? y) && (1 <=? m) && (m <=? 12) && (1 <=? d)
     && (d <=? days_in_month y m) && (hh <? 24) && (mm <? 60) && (ss <? 60)
  then Some ((((days_from_civil y m d * 24 + hh) * 60 + mm) * 60 + ss)
             * us_per_second)
  else None.

Definition month_number (name : string) : option Z :=
  let names := ["Jan"; "Feb"; "Mar"; "Apr"; "May"; "Jun";
                "Jul"; "Aug"; "Sep"; "Oct"; "Nov"; "Dec"] in
  match list_find (String.eqb name) names with
  | Some (i, _) => Some (Z.of_nat i + 1)
  | None => None
  end.

Definition is_weekday (name : string) : bool :=
  existsb (String.eqb name) ["Mon"; "Tue"; "Wed"; "Thu"; "Fri"; "Sat"; "Sun"].

(** ["2026-01-30 12:34:56"] *)
Definition strict_ymd_hms (s : string) : option Z :=
  if (String.length s =? 19)%nat && char_at 4 "-" s && char_at 7 "-" s
     && char_at 10 " " s && char_at 13 ":" s && char_at 16 ":" s
  then
    match field 0 4 s, field 5 2 s, field 8 2 s,
          field 11 2 s, field 14 2 s, field 17 2 s with
    | Some y, Some m, Some d, Some hh, Some mm, Some ss =>
        wall_clock y m d hh mm ss
    | _, _, _, _, _, _ => None
    end
  else None.

(** ["Wed Oct 10 20:19:24 +0000 2018"] *)
Definition strict_twitter (s : string) : option Z :=
  if (String.length s =? 30)%nat && is_weekday (String.substring 0 3 s)
     && char_at 3 " " s && char_at 7 " " s && char_at 10 " " s
     && char_at 13 ":" s && char_at 16 ":" s && char_at 19 " " s
     && (char_at 20 "+" s || char_at 20 "-" s) && char_at 25 " " s
  then
    match month_number (String.substring 4 3 s), field 8 2 s, field 11 2 s,
          field 14 2 s, field 17 2 s, field 21 2 s, field 23 2 s,
          field 26 4 s with
    | Some m, Some d, Some hh, Some mm, Some ss, Some zh, Some zm, Some y =>
        match wall_clock y m d hh mm ss with
        | Some wall =>
            let off := (zh * 3600 + zm * 60) * us_per_second in
            if zm <? 60
            then Some (if char_at 20 "-" s then wall + off else wall - off)
            else None
        | None => None
        end
    | _, _, _, _, _, _, _, _ => None
    end
  else None.

(** A text [TypeError] carries when a string meets a datetime. *)
Definition str_datetime_type_error : string :=
  "'<' not supported between instances of 'str' and 'datetime.datetime'".

(** ** The caller (src/main.py)

    [_setup_components] builds the fetcher from the [twitter] section of
    the configuration, and [_save_stats] appends the statistics of a run
    to a JSON file.  A section is a record of optional values: [None] is an
    absent key, a present key holds a value of the expected type. *)



Record MonitoringSection := {
  enable_stats : option bool;
  stats_file : option string
}.

(** [{'timestamp': datetime.now().isoformat(), **stats}], the clock reading
    kept as the instant. *)
Record StatsEntry := {
  timestamp : Z;
  entry_stats : Stats
}.

(** What [_save_stats] can find in a file: a JSON array, whose elements it
    never looks at, or anything else, on which [json.load] or [append]
    raises. *)
Inductive file_content :=
| FC_entries (all_stats : list StatsEntry)
| FC_other.

(** The files that hold statistics, by path, and the paths at which
    [mkdir] or [open(..., 'w')] raises.  The directories that [mkdir]
    creates and the log file of the logger are not part of it. *)
Record Disk := {
  files : gmap string file_content;
  unwritable : gset string
}.

(** The slice [l[-n:]] for a positive [n]. *)
Definition last_entries {A} (n : nat) (l : list A) : list A :=
  drop (length l - n) l.

Definition stats_path (monitoring : MonitoringSection) : string :=
  default "logs/stats.json" (stats_file monitoring).

Definition write_stats (path : string) (all_stats : list StatsEntry)
    (disk : Disk) : Disk :=
  {| files := <[path := FC_entries all_stats]> (files disk);
     unwritable := unwritable disk |}.

(** [_save_stats] (lines 263 to 296).  [monitoring] is [None] when the
    configuration has no [monitoring] section: the guard then reads the
    default [True] from the empty dict, and [self.config['monitoring']]
    raises inside the [try].  Every exception ends the call with a
    warning. *)
Definition _save_stats (monitoring : option MonitoringSection) (now : Z)
    (stats : Stats) (disk : Disk) : Disk :=
  let enabled :=
    match monitoring with
    | Some section => default true (enable_stats section)
    | None => true
    end in
  if negb enabled then disk
  else
    match monitoring with
    | None => disk
    | Some section =>
        let path := stats_path section in
        if decide (path ∈ unwritable disk) then disk
        else
          let stats_entry := {| timestamp := now; entry_stats := stats |} in
          match files disk !! path with
          | Some FC_other => disk
          | Some (FC_entries all_stats) =>
              write_stats path (last_entries 30 (all_stats ++ [stats_entry]))
                disk
          | None =>
              write_stats path (last_entries 30 ([] ++ [stats_entry])) disk
          end
    end.

(** ** Sample batches *)

Module Sample.

Definition tweet (tweet_id txt time : string) (reply_to : option string)
  : Tweet :=
  {| tw_id := tweet_id; tw_text := txt; tw_created_at := RT_str time;
     tw_favorite_count := Some 1; tw_retweet_count := Some 0;
     tw_retweeted_tweet := false;
     tw_in_reply_to_tweet_id := reply_to;
     tw_legacy_reply_user :=
       match reply_to with Some _ => Some "7" | None => None end;
     tw_user_id := "7" |}.

(** Three tweets of alice, newest first: C answers B, B answers A. *)
Definition tweet_a := tweet "100" "a" "Wed Oct 10 20:19:24 +0000 2018" None.
Definition tweet_b := tweet "101" "b" "Wed Oct 10 20:20:24 +0000 2018" (Some "100").
Definition tweet_c := tweet "102" "c" "Wed Oct 10 20:21:24 +0000 2018" (Some "101").
Definition thread_abc : list Tweet := [tweet_c; tweet_b; tweet_a].

(** B answers A, and a retweet. *)
Definition thread_ab : list Tweet := [tweet_b; tweet_a].





(** A tweet of Wednesday 31 October and its answer of Thursday 1 November,
    two minutes later, with timestamps in the textual format. *)
Definition tweet_wed := tweet "100" "a" "Wed Oct 31 23:59:00 +0000 2018" None.
Definition tweet_thu :=
  tweet "101" "b" "Thu Nov 01 00:01:00 +0000 2018" (Some "100").
Definition turn_of_month : list Tweet := [tweet_thu; tweet_wed].

(** Two threads whose roots the batch does not hold. *)
Definition tweet_d := tweet "201" "d" "Wed Oct 10 20:30:00 +0000 2018" (Some "200").
Definition two_threads : list Tweet := [tweet_d; tweet_b].

(** A tweet of the day before and one without a readable time. *)
Definition tweet_old := tweet "90" "old" "Tue Oct 09 08:00:00 +0000 2018" None.
Definition tweet_untimed := tweet "91" "untimed" "yesterday" None.
Definition mixed_ages : list Tweet := [tweet_a; tweet_old; tweet_untimed].

(** 2018-10-10 22:00:00 UTC *)
Definition now : Z := 1539208800 * us_per_second.

Definition thread_api_down : string → thread_reply :=
  λ _, TR_raise "404 Not Found".

(** The remote thread of A has three entries. *)
Definition thread_api_three : string → thread_reply :=
  λ _, TR_tweet (Some [Some "a"; Some "b"; Some "c"]).

Definition rate_limited_twice (tweets : list Tweet) (attempt : nat)
  : fetch_reply :=
  match attempt with
  | 0%nat | 1%nat => FR_raise "429 Too Many Requests"
  | _ => FR_tweets tweets thread_api_down
  end.

Definition always_rate_limited : nat → fetch_reply :=
  λ _, FR_raise "Rate limit exceeded".

Definition unknown_user : nat → fetch_reply :=
  λ _, FR_raise "User not found".

Definition no_retry_config : Config :=
  {| request_delay := 5; retry_on_rate_limit := false; max_retries := 3;
     max_tweet_age_hours := 9; enable_thread_merging := true;
     max_thread_fetches := 3 |}.

Definition one_fetch_config : Config :=
  {| request_delay := 5; retry_on_rate_limit := true; max_retries := 3;
     max_tweet_age_hours := 9; enable_thread_merging := true;
     max_thread_fetches := 1 |}.


Definition no_budget_config : Config :=
  {| request_delay := 5; retry_on_rate_limit := true; max_retries := 3;
     max_tweet_age_hours := 9; enable_thread_merging := true;
     max_thread_fetches := 0 |}.

(** An answer of alice to a tweet of somebody else, next to a plain
    tweet. *)
Definition reply_to_other : Tweet :=
  {| tw_id := "400"; tw_text := "re"; tw_created_at := RT_none;
     tw_favorite_count := None; tw_retweet_count := None;
     tw_retweeted_tweet := false; tw_in_reply_to_tweet_id := Some "399";
     tw_legacy_reply_user := Some "8"; tw_user_id := "7" |}.
Definition no_self_replies : list Tweet := [reply_to_other; tweet_a].

(** Two accounts, the first with the thread A, B, C and the second with
    three plain tweets. *)
Definition two_accounts (index : nat) : nat → fetch_reply :=
  match index with
  | O => λ _, FR_tweets thread_abc thread_api_down
  | _ => λ _, FR_tweets mixed_ages thread_api_down
  end.

(** A [monitoring] section without keys, a disk without files, and the
    entries of 31 earlier runs. *)
Definition monitoring_defaults : MonitoringSection :=
  {| enable_stats := None; stats_file := None |}.

Definition empty_disk : Disk := {| files := ∅; unwritable := ∅ |}.

Definition history : list StatsEntry :=
  map (λ day, {| timestamp := Z.of_nat day; entry_stats := empty_stats |})
      (seq 0 31).

Definition disk_with_history : Disk :=
  {| files := {[ "logs/stats.json" := FC_entries history ]};
     unwritable := ∅ |}.


Definition start : State := {| stats := empty_stats; trace := [] |}.

Definition is_request (ev : event) : bool :=
  match ev with EvGetTweetById _ => true | _ => false end.

Definition is_sleep (ev : event) : bool :=
  match ev with EvSleep _ => true | _ => false end.

End Sample.

(** ** The fetcher *)

Section Fetcher.

(** [datetime.strptime(s, "%a %b %d %H:%M:%S %z %Y")]: the instant of the
    aware result, [None] for [ValueError]. *)
Variable strptime_twitter : string → option Z.

(** [datetime.strptime(s, "%Y-%m-%d %H:%M:%S")]: the wall-clock reading of
    the naive result, [None] for [ValueError]. *)
Variable strptime_ymd_hms : string → option Z.

(** The text of the [TypeError] that [list.sort] raises on keys that do
    not compare. *)
Variable sort_type_error : string.

(** The order in which a [for] loop runs through a Python [set]: some
    order of its elements. *)
Variable set_order : gset string → list string.
Hypothesis set_order_perm : ∀ s, set_order s ≡ₚ elements s.

Variable cfg : Config.

(** *** Thread detection *)

(** [tweet_map[tweet.id] = tweet] for each raw tweet. *)
Definition build_tweet_map (raw_tweets : list Tweet) : gmap string Tweet :=
  foldl (λ m t, <[tw_id t := t]> m) ∅ raw_tweets.

(** The parent of a tweet when it is a self-reply (lines 158 to 170). *)
Definition self_reply_parent (tweet_map : gmap string Tweet) (t : Tweet)
  : option string :=
  if truthy (tw_in_reply_to_tweet_id t) then
    match tw_in_reply_to_tweet_id t with
    | Some parent_id =>
        let reply_to_user :=
          if truthy (tw_legacy_reply_user t) then tw_legacy_reply_user t
          else match tweet_map !! parent_id with
               | Some p =>
                   if decide (tw_user_id p = tw_user_id t)
                   then Some (tw_user_id t)
                   else tw_legacy_reply_user t
               | None => tw_legacy_reply_user t
               end in
        if truthy reply_to_user
           && bool_decide (reply_to_user = Some (tw_user_id t))
        then Some parent_id else None
    | None => None
    end
  else None.

(** One round of the loop that fills [self_replies] and
    [reply_to_parent]. *)
Definition record_self_reply (tweet_map : gmap string Tweet)
    (acc : gset string * OD.t) (t : Tweet) : gset string * OD.t :=
  match self_reply_parent tweet_map t with
  | Some parent_id =>
      ({[tw_id t]} ∪ acc.1, OD.set (tw_id t) parent_id acc.2)
  | None => acc
  end.

Definition find_self_replies (tweet_map : gmap string Tweet)
    (raw_tweets : list Tweet) : gset string * OD.t :=
  foldl (record_self_reply tweet_map) (∅, []) raw_tweets.

(** [root_ids]: the resolved root of every edge. *)
Definition compute_root_ids (rtp : OD.t) : gset string :=
  list_to_set ((λ e, resolve_edge rtp e.1 e.2) <$> rtp).

(** [chain_ids] of one root: the root and every child resolving to it. *)
Definition chain_ids (rtp : OD.t) (root_id : string) : gset string :=
  {[root_id]} ∪
  list_to_set ((filter (λ e, resolve_edge rtp e.1 e.2 = root_id) rtp).*1).

(** [merged_ids]: the union of the chains of the recorded roots. *)
Definition compute_merged_ids (rtp : OD.t)
    (thread_texts : gmap string (list string)) : gset string :=
  ⋃ (chain_ids rtp <$> elements (dom thread_texts)).

(** *** Local fallback *)

(** The list [chain] of [_fallback_thread_from_batch]. *)
Definition fallback_chain (root_id : string) (tweet_map : gmap string Tweet)
    (rtp : OD.t) : list (string * Tweet) :=
  match tweet_map !! root_id with
  | Some t => [(root_id, t)]
  | None => []
  end ++
  flat_map (λ e : string * string,
              if decide (resolve_edge rtp e.1 e.2 = root_id) then
                match tweet_map !! e.1 with
                | Some t => [(e.1, t)]
                | None => []
                end
              else []) rtp.

(** [_fallback_thread_from_batch]: the new [thread_texts] and statistics,
    or the [TypeError] of the sort. *)
Definition _fallback_thread_from_batch (root_id : string)
    (tweet_map : gmap string Tweet) (rtp : OD.t)
    (thread_texts : gmap string (list string)) (st : State)
  : option string * gmap string (list string) * State :=
  let chain := fallback_chain root_id tweet_map rtp in
  if (1 <? length chain)%nat then
    match py_sort (λ x, created_at_key x.2) chain with
    | Some sorted =>
        let texts := map (λ x, tw_text x.2) sorted in
        match texts with
        | [] => (None, thread_texts, st)
        | _ :: _ =>
            (None, <[root_id := texts]> thread_texts,
             with_stats add_thread_detected st)
        end
    | None => (Some sort_type_error, thread_texts, st)
    end
  else (None, thread_texts, st).

(** *** Hydration: the loop over [root_ids] (lines 191 to 215) *)

(** [texts] when [root_tweet.thread] is truthy. *)
Definition remote_texts (thread : option (list (option string))) : list string :=
  match thread with
  | Some l => omap (λ o, o) l
  | None => []
  end.

Fixpoint hydrate (thread_api : string → thread_reply)
    (tweet_map : gmap string Tweet) (rtp : OD.t)
    (roots : list string) (thread_fetches : Z)
    (thread_texts : gmap string (list string)) (st : State)
  : option string * gmap string (list string) * State :=
  match roots with
  | [] => (None, thread_texts, st)
  | root_id :: rest =>
      if decide (max_thread_fetches cfg ≤ thread_fetches)
      then (None, thread_texts, st)
      else
        match thread_api root_id with
        | TR_tweet thread =>
            let st1 := emit [EvGetTweetById root_id;
                             EvSleep (request_delay cfg)] st in
            match remote_texts thread with
            | (_ :: _) as texts =>
                hydrate thread_api tweet_map rtp rest (thread_fetches + 1)
                  (<[root_id := texts]> thread_texts)
                  (with_stats add_thread_detected st1)
            | [] =>
                match _fallback_thread_from_batch root_id tweet_map rtp
                        thread_texts st1 with
                | (None, texts_map, st2) =>
                    hydrate thread_api tweet_map rtp rest
                      (thread_fetches + 1) texts_map st2
                | (Some e, texts_map, st2) => (Some e, texts_map, st2)
                end
            end
        | TR_raise _ =>
            let st1 := emit [EvGetTweetById root_id] st in
            match _fallback_thread_from_batch root_id tweet_map rtp
                    thread_texts st1 with
            | (None, texts_map, st2) =>
                hydrate thread_api tweet_map rtp rest thread_fetches texts_map st2
            | (Some e, texts_map, st2) => (Some e, texts_map, st2)
            end
        end
  end.

(** *** Rebuilding the result list (lines 236 to 262) *)

Definition merged_post (user : string) (tweet_data : Post) (root : string)
    (texts : list string) : Post :=
  {| username := username tweet_data;
     text := String.concat thread_separator texts;
     created_at := created_at tweet_data;
     likes := likes tweet_data;
     retweets := retweets tweet_data;
     url := status_url user root;
     is_thread := Some true;
     thread_length := Some (length texts) |}.

Fixpoint rebuild (user : string) (rtp : OD.t)
    (thread_texts : gmap string (list string)) (merged_ids : gset string)
    (used_roots : gset string) (results : list Post) : list Post :=
  match results with
  | [] => []
  | tweet_data :: rest =>
      let tweet_id := last_segment (url tweet_data) in
      if decide (tweet_id ∈ merged_ids) then
        let root := resolve_id rtp tweet_id in
        match thread_texts !! root with
        | Some texts =>
            if decide (root ∈ used_roots)
            then rebuild user rtp thread_texts merged_ids used_roots rest
            else merged_post user tweet_data root texts
                 :: rebuild user rtp thread_texts merged_ids
                      ({[root]} ∪ used_roots) rest
        | None => rebuild user rtp thread_texts merged_ids used_roots rest
        end
      else
        tweet_data :: rebuild user rtp thread_texts merged_ids used_roots rest
  end.

(** [_merge_threads]: the merged list, or the exception that leaves it. *)
Definition _merge_threads (thread_api : string → thread_reply)
    (user : string) (results : list Post) (raw_tweets : list Tweet)
    (st : State) : (string + list Post) * State :=
  let tweet_map := build_tweet_map raw_tweets in
  let '(self_replies, rtp) := find_self_replies tweet_map raw_tweets in
  if decide (self_replies = ∅) then (inr results, st)
  else
    let root_ids := compute_root_ids rtp in
    match hydrate thread_api tweet_map rtp (set_order root_ids) 0 ∅ st with
    | (Some e, _, st') => (inl e, st')
    | (None, thread_texts, st') =>
        if decide (thread_texts = ∅) then (inr results, st')
        else
          (inr (rebuild user rtp thread_texts
                  (compute_merged_ids rtp thread_texts) ∅ results), st')
    end.

(** *** The per-account fetch *)

(** The time a tweet carries (lines 78 to 93): [None] when [created_at]
    is missing, falsy or unparseable. *)
Definition parse_tweet_time (c : raw_time) : option Z :=
  match c with
  | RT_none => None
  | RT_datetime d => Some (datetime_instant d)
  | RT_str s =>
      if String.eqb s "" then None
      else match strptime_twitter s with
           | Some t => Some t
           | None => strptime_ymd_hms (String.substring 0 19 s)
           end
  end.

(** [cutoff_date] *)
Definition cutoff_date (now : Z) : Z :=
  now - max_tweet_age_hours cfg * us_per_hour.

Definition created_at_str (tweet_time : option Z) : string :=
  match tweet_time with
  | Some t => beijing_time_str t
  | None => ""
  end.

Definition tweet_data_of (user : string) (tweet : Tweet) : Post :=
  {| username := user;
     text := tw_text tweet;
     created_at := created_at_str (parse_tweet_time (tw_created_at tweet));
     likes := default 0 (tw_favorite_count tweet);
     retweets := default 0 (tw_retweet_count tweet);
     url := status_url user (tw_id tweet);
     is_thread := None;
     thread_length := None |}.

(** The test of line 96. *)
Definition too_old (cutoff : Z) (tweet : Tweet) : bool :=
  match parse_tweet_time (tw_created_at tweet) with
  | Some t => t <? cutoff
  | None => false
  end.

(** The loop over the fetched tweets (lines 71 to 115): [results] and
    [filtered_count]. *)
Fixpoint scan_tweets (user : string) (cutoff : Z) (tweets : list Tweet)
    (results : list Post) (filtered_count : nat) : list Post * nat :=
  match tweets with
  | [] => (results, filtered_count)
  | tweet :: rest =>
      if tw_retweeted_tweet tweet then
        scan_tweets user cutoff rest results filtered_count
      else if too_old cutoff tweet then
        scan_tweets user cutoff rest results (S filtered_count)
      else
        scan_tweets user cutoff rest
          (results ++ [tweet_data_of user tweet]) filtered_count
  end.

(** The [try] body after the timeline request answered (lines 71 to 128). *)
Definition process_tweets (user : string) (cutoff : Z) (tweets : list Tweet)
    (thread_api : string → thread_reply) (st : State)
  : (string + list Post) * State :=
  let '(results, filtered_count) := scan_tweets user cutoff tweets [] 0 in
  let st1 := if (0 <? filtered_count)%nat
             then with_stats (add_filtered filtered_count) st else st in
  let merged :=
    if enable_thread_merging cfg && negb (bool_decide (results = []))
    then _merge_threads thread_api user results tweets st1
    else (inr results, st1) in
  match merged with
  | (inr results', st2) =>
      (inr results', with_stats (add_success (length results')) st2)
  | (inl e, st2) => (inl e, st2)
  end.

(** ['429' in error_msg or 'Rate limit' in error_msg] *)
Definition is_rate_limit (error_msg : string) : bool :=
  str_contains "429" error_msg || str_contains "Rate limit" error_msg.

Definition failure_entry (user error_msg : string) : string :=
  "@" +:+ user +:+ ": " +:+ error_msg.

(** The [try] block of one attempt: the timeline request, then the
    processing of its answer. *)
Definition run_attempt (remote : nat → fetch_reply) (user : string)
    (count : Z) (cutoff : Z) (attempt : nat) (st : State)
  : (string + list Post) * State :=
  let st0 := emit [EvGetTweets user count] st in
  match remote attempt with
  | FR_raise msg => (inl msg, st0)
  | FR_tweets tweets thread_api =>
      process_tweets user cutoff tweets thread_api st0
  end.

(** The retry loop: [remaining] iterations of [range(max_retries + 1)] are
    left and the next one is [attempt]. *)
Fixpoint attempts (remote : nat → fetch_reply) (user : string) (count : Z)
    (cutoff : Z) (remaining : nat) (attempt : nat) (st : State)
  : list Post * State :=
  match remaining with
  | O => ([], st)
  | S remaining' =>
      match run_attempt remote user count cutoff attempt st with
      | (inr results, st1) => (results, st1)
      | (inl error_msg, st1) =>
          if is_rate_limit error_msg && retry_on_rate_limit cfg
             && (Z.of_nat attempt <? max_retries cfg)
          then
            attempts remote user count cutoff remaining' (S attempt)
              (emit [EvSleep ((Z.of_nat attempt + 1) * 30)] st1)
          else
            ([], with_stats (add_failure (failure_entry user error_msg)) st1)
      end
  end.

(** [get_user_tweets]; [now] is the reading of [datetime.now(timezone.utc)]
    and [remote] what the client answers at each attempt. *)
Definition get_user_tweets (now : Z) (remote : nat → fetch_reply)
    (user : string) (count : Z) (st : State) : list Post * State :=
  attempts remote user count (cutoff_date now)
    (Z.to_nat (max_retries cfg + 1)) 0 st.

(** *** The batch driver *)

(** One task [_fetch(index, username)], run to its end. *)
Definition run_task (now : nat → Z) (remote : nat → nat → fetch_reply)
    (usernames : list string) (tweets_per_account : Z)
    (acc : list (option (list Post)) * State) (index : nat)
  : list (option (list Post)) * State :=
  match usernames !! index with
  | Some user =>
      let '(tweets, st') :=
        get_user_tweets (now index) (remote index) user tweets_per_account
          acc.2 in
      (<[index := Some tweets]> acc.1,
       emit [EvSleep (request_delay cfg)] st')
  | None => acc
  end.

(** The final loop: [if tweets: all_tweets.extend(tweets)]. *)
Definition flatten_slots (results : list (option (list Post))) : list Post :=
  flat_map (λ slot, match slot with Some tweets => tweets | None => [] end)
           results.

(** [fetch_multiple_accounts].  [completion] is the order in which the
    gathered tasks finish; task [i] reads the clock [now i] and is
    answered by [remote i]. *)
Definition fetch_multiple_accounts (now : nat → Z)
    (remote : nat → nat → fetch_reply) (usernames : list string)
    (tweets_per_account : Z) (completion : list nat) (st : State)
  : list Post * State :=
  let st0 := with_stats (set_total_accounts (length usernames)) st in
  let '(results, st1) :=
    foldl (run_task now remote usernames tweets_per_account)
          (replicate (length usernames) None, st0) completion in
  (flatten_slots results, st1).

(** *** The merger in the words of the specification

    Walking the original list once: a post whose resolved root has
    recorded texts is replaced by the merged post the first time that
    root is met and dropped every later time; any other post is passed
    on as it is. *)

Definition chain_root_of (rtp : OD.t) (p : Post) : string :=
  resolve_id rtp (last_segment (url p)).

Fixpoint merge_by_chain (user : string) (rtp : OD.t)
    (thread_texts : gmap string (list string))
    (earlier rest : list Post) : list Post :=
  match rest with
  | [] => []
  | p :: rest' =>
      match thread_texts !! chain_root_of rtp p with
      | Some texts =>
          if decide (Exists (λ q, chain_root_of rtp q = chain_root_of rtp p)
                            earlier)
          then []
          else [merged_post user p (chain_root_of rtp p) texts]
      | None => [p]
      end ++ merge_by_chain user rtp thread_texts (earlier ++ [p]) rest'
  end.


(** Everything but [threads_detected] is left alone. *)
Definition same_accounts (s s' : Stats) : Prop :=
  total_accounts s' = total_accounts s
  ∧ successful_accounts s' = successful_accounts s
  ∧ failed_accounts s' = failed_accounts s
  ∧ total_tweets s' = total_tweets s
  ∧ filtered_old_tweets s' = filtered_old_tweets s
  ∧ errors s' = errors s.

(** A remote thread request or the pacing sleep that follows one. *)
Definition is_hydration_event (ev : event) : Prop :=
  (∃ tweet_id, ev = EvGetTweetById tweet_id) ∨ ev = EvSleep (request_delay cfg).

(** The two ways through the age filter. *)
Definition dropped_old (cutoff : Z) (t : Tweet) : bool :=
  negb (tw_retweeted_tweet t) && too_old cutoff t.

Definition kept (cutoff : Z) (t : Tweet) : bool :=
  negb (tw_retweeted_tweet t) && negb (too_old cutoff t).



(** The creation time of a collected tweet, as the fetcher reads it
    (lines 78 to 93). *)
Definition creation_time (x : string * Tweet) : option Z :=
  parse_tweet_time (tw_created_at x.2).



(** The events of the hydration loop for the roots it asked for: the
    request and, when it was answered, the pacing sleep. *)
Definition hydration_events (thread_api : string → thread_reply)
    (asked : list string) : list event :=
  flat_map (λ root_id,
              if answered thread_api root_id
              then [EvGetTweetById root_id; EvSleep (request_delay cfg)]
              else [EvGetTweetById root_id]) asked.

(** The test of lines 158 to 170 in words: the tweet answers [parent_id],
    has an author id, and the author of the answered tweet is the same,
    by the reply metadata when there is any and else by the answered tweet
    when the batch holds it. *)
Definition is_self_reply_to (tweet_map : gmap string Tweet) (t : Tweet)
    (parent_id : string) : Prop :=
  tw_in_reply_to_tweet_id t = Some parent_id
  ∧ parent_id ≠ ""
  ∧ tw_user_id t ≠ ""
  ∧ (tw_legacy_reply_user t = Some (tw_user_id t)
     ∨ (truthy (tw_legacy_reply_user t) = false
        ∧ ∃ parent, tweet_map !! parent_id = Some parent
                    ∧ tw_user_id parent = tw_user_id t)).

(** * Properties *)

Set Default Proof Using "Type".

(** Proofs about the walk and the chains do not look at the parameters
    of the fetcher. *)
Ltac no_parameters :=
  try clear set_order_perm; try clear set_order; try clear cfg;
  try clear strptime_twitter; try clear strptime_ymd_hms;
  try clear sort_type_error.

Ltac no_parsers := try clear strptime_twitter; try clear strptime_ymd_hms.

(** ** The ordered dictionary *)

Lemma od_get_Some_keys k v d : OD.get k d = Some v → k ∈ OD.keys d.
Proof. no_parameters.
  unfold OD.keys. induction d as [|[k' v'] d IH]; simpl; [done|].
  destruct (decide (k = k')) as [->|Hne]; set_solver.
Qed.

Lemma od_get_None_keys k d : OD.get k d = None → k ∉ OD.keys d.
Proof. no_parameters.
  unfold OD.keys. induction d as [|[k' v'] d IH]; simpl; [set_solver|].
  destruct (decide (k = k')) as [->|Hne]; [done|]. set_solver.
Qed.

Lemma od_get_In k v d : OD.get k d = Some v → In (k, v) d.
Proof.
  induction d as [|[k' v'] d IH]; simpl; [done|].
  destruct (decide (k = k')) as [->|Hne]; [intros [= ->]; by left|].
  intros H. right. by apply IH.
Qed.

Lemma od_length_set k v d : (length (OD.set k v d) ≤ S (length d))%nat.
Proof.
  induction d as [|[k' v'] d IH]; simpl; [lia|].
  destruct (decide (k = k')); simpl; lia.
Qed.

Lemma od_size_keys d : (size (OD.keys d) ≤ length d)%nat.
Proof. no_parameters.
  unfold OD.keys. induction d as [|[k' v'] d IH]; [done|].
  rewrite fmap_cons, list_to_set_cons, size_union_alt, size_singleton.
  cbn [fst length].
  assert (size (list_to_set d.*1 ∖ {[k']} : gset string)
          ≤ size (list_to_set d.*1 : gset string))%nat
    by (apply subseteq_size; set_solver).
  lia.
Qed.

(** ** The walk *)

Lemma walk_unfold fuel rtp visited root :
  walk fuel rtp visited root =
  match OD.get root rtp with
  | Some next =>
      if decide (root ∈ visited) then Some (WalkEnd root visited 0)
      else match fuel with
           | O => None
           | S fuel' =>
               match walk fuel' rtp ({[root]} ∪ visited) next with
               | Some e =>
                   Some (WalkEnd (we_root e) (we_visited e) (S (we_lookups e)))
               | None => None
               end
           end
  | None => Some (WalkEnd root visited 0)
  end.
Proof. by destruct fuel. Qed.

Lemma fresh_key_shrinks (keys visited : gset string) root :
  root ∈ keys → root ∉ visited →
  (size (keys ∖ ({[root]} ∪ visited)) < size (keys ∖ visited))%nat.
Proof. no_parameters. intros Hk Hv. apply subset_size. set_solver. Qed.

(** Fuel for every key not yet visited is enough. *)
Lemma walk_fuel_enough fuel rtp visited root :
  (size (OD.keys rtp ∖ visited) ≤ fuel)%nat →
  is_Some (walk fuel rtp visited root).
Proof.
  revert visited root.
  induction fuel as [|fuel IH]; intros visited root Hsz;
    rewrite walk_unfold; destruct (OD.get root rtp) as [next|] eqn:Hget;
    try done; destruct (decide (root ∈ visited)) as [Hin|Hnin]; try done.
  - pose proof (fresh_key_shrinks _ _ _ (od_get_Some_keys _ _ _ Hget) Hnin).
    lia.
  - pose proof (fresh_key_shrinks _ _ _ (od_get_Some_keys _ _ _ Hget) Hnin).
    destruct (IH ({[root]} ∪ visited) next) as [e ->]; [lia|done].
Qed.

(** What a finished walk looks like: it grew [visited] by one fresh id per
    lookup, never beyond the keys, and it stopped at an id without an
    edge or at one it had seen. *)
Lemma walk_end_spec fuel rtp visited root e :
  walk fuel rtp visited root = Some e →
  visited ⊆ we_visited e
  ∧ we_visited e ⊆ visited ∪ OD.keys rtp
  ∧ size (we_visited e) = (size visited + we_lookups e)%nat
  ∧ (OD.get (we_root e) rtp = None ∨ we_root e ∈ we_visited e).
Proof. no_parameters.
  revert visited root e.
  induction fuel as [|fuel IH]; intros visited root e;
    rewrite walk_unfold; destruct (OD.get root rtp) as [next|] eqn:Hget;
    try (intros [= <-]; simpl; split_and!; [done|set_solver|lia|by left]);
    destruct (decide (root ∈ visited)) as [Hin|Hnin];
    try (intros [= <-]; simpl; split_and!; [done|set_solver|lia|by right]);
    try done.
  destruct (walk fuel rtp ({[root]} ∪ visited) next) as [e'|] eqn:Hw; [|done].
  intros [= <-]. simpl. destruct (IH _ _ _ Hw) as (H1 & H2 & H3 & H4).
  pose proof (od_get_Some_keys _ _ _ Hget).
  split_and!; [set_solver|set_solver| |done].
  rewrite H3, size_union, size_singleton by set_solver. lia.
Qed.

Lemma walk_fuel_mono fuel fuel' rtp visited root e :
  walk fuel rtp visited root = Some e → (fuel ≤ fuel')%nat →
  walk fuel' rtp visited root = Some e.
Proof.
  revert fuel' visited root e.
  induction fuel as [|fuel IH]; intros fuel' visited root e;
    rewrite (walk_unfold fuel'), walk_unfold;
    destruct (OD.get root rtp) as [next|]; try done;
    destruct (decide (root ∈ visited)); try done.
  destruct (walk fuel rtp ({[root]} ∪ visited) next) as [e'|] eqn:Hw; [|done].
  intros [= <-] Hle. destruct fuel' as [|fuel']; [lia|].
  by rewrite (IH fuel' _ _ _ Hw) by lia.
Qed.

(** The callers' fuel, the number of edges, never runs out. *)
Lemma find_root_walk rtp visited start :
  ∃ e, walk (length rtp) rtp visited start = Some e
       ∧ find_root rtp visited start = we_root e.
Proof. no_parameters.
  unfold find_root.
  destruct (walk_fuel_enough (length rtp) rtp visited start) as [e He].
  - etrans; [apply subseteq_size|apply od_size_keys]. set_solver.
  - exists e. by rewrite He.
Qed.

(** ** The reply edges of a batch *)

Lemma find_self_replies_length tweet_map raw_tweets acc :
  (length (foldl (record_self_reply tweet_map) acc raw_tweets).2
   ≤ length acc.2 + length raw_tweets)%nat.
Proof.
  revert acc. induction raw_tweets as [|t l IH]; intros acc; simpl; [lia|].
  etrans; [apply IH|]. unfold record_self_reply.
  destruct (self_reply_parent tweet_map t) as [parent_id|]; simpl; [|lia].
  pose proof (od_length_set (tw_id t) parent_id acc.2). lia.
Qed.

Lemma edges_le_batch tweet_map raw_tweets :
  (length (find_self_replies tweet_map raw_tweets).2 ≤ length raw_tweets)%nat.
Proof.
  unfold find_self_replies.
  etrans; [apply find_self_replies_length|]. simpl. lia.
Qed.

(** C8. For every batch and every child id holding a reply edge, the root
    walk ends: with the batch size as fuel it returns, it made fewer
    parent lookups than the batch has tweets (the first parent included,
    at most the batch size), every lookup added one id not seen before to
    [visited], and it stopped at an id without an edge or at an id that
    was already in [visited]. *)
Theorem root_walk_terminates raw_tweets child parent :
  let rtp := (find_self_replies (build_tweet_map raw_tweets) raw_tweets).2 in
  OD.get child rtp = Some parent →
  ∃ e, walk (length raw_tweets) rtp {[child]} parent = Some e
       ∧ resolve_edge rtp child parent = we_root e
       ∧ (S (we_lookups e) ≤ length raw_tweets)%nat
       ∧ size (we_visited e) = S (we_lookups e)
       ∧ (OD.get (we_root e) rtp = None ∨ we_root e ∈ we_visited e).
Proof. no_parameters.
  intros rtp Hget.
  destruct (find_root_walk rtp {[child]} parent) as (e & Hw & Hroot).
  pose proof (edges_le_batch (build_tweet_map raw_tweets) raw_tweets) as Hlen.
  fold rtp in Hlen.
  destruct (walk_end_spec _ _ _ _ _ Hw) as (_ & Hsub & Hsz & Hstop).
  rewrite size_singleton in Hsz.
  exists e. split_and!; [by eapply walk_fuel_mono| done | | done | done].
  assert (size (we_visited e) ≤ length raw_tweets)%nat; [|lia].
  etrans; [apply subseteq_size|etrans; [apply (od_size_keys rtp)|done]].
  pose proof (od_get_Some_keys _ _ _ Hget). set_solver.
Qed.

(** ** Roots are fixed points of the walk *)

Lemma walk_functional fuel1 fuel2 rtp visited root e1 e2 :
  walk fuel1 rtp visited root = Some e1 →
  walk fuel2 rtp visited root = Some e2 → e1 = e2.
Proof.
  intros H1 H2.
  apply (walk_fuel_mono _ (fuel1 `max` fuel2)) in H1; [|lia].
  apply (walk_fuel_mono _ (fuel1 `max` fuel2)) in H2; [|lia].
  congruence.
Qed.

Lemma find_root_eq fuel rtp visited start e :
  walk fuel rtp visited start = Some e → find_root rtp visited start = we_root e.
Proof.
  intros Hw. destruct (find_root_walk rtp visited start) as (e' & Hw' & ->).
  by rewrite (walk_functional _ _ _ _ _ _ _ Hw' Hw).
Qed.

(** A walk that ends at an id it was told about ends there as well when
    it is told about fewer ids. *)
Lemma walk_shrink_visited fuel rtp (V W : gset string) y e :
  W ⊆ V → walk fuel rtp V y = Some e → we_root e ∈ W →
  ∃ e', walk fuel rtp W y = Some e' ∧ we_root e' = we_root e.
Proof. no_parameters.
  revert V W y e.
  induction fuel as [|fuel IH]; intros V W y e Hsub;
    rewrite (walk_unfold _ _ W), walk_unfold;
    destruct (OD.get y rtp) as [next|] eqn:Hget;
    try (intros [= <-] _; eauto; fail);
    (destruct (decide (y ∈ V)) as [HV|HV];
     [intros [= <-]; simpl; intros HW; rewrite decide_True by done; eauto|]);
    try done.
  rewrite decide_False by set_solver.
  destruct (walk fuel rtp ({[y]} ∪ V) next) as [e0|] eqn:Hw; [|done].
  intros [= <-]; simpl; intros HW.
  destruct (IH ({[y]} ∪ V) ({[y]} ∪ W) next e0) as (e' & -> & Hr);
    [set_solver|done|set_solver|]. eauto.
Qed.

(** A walk that ends at an id with an edge either was told about it or
    passed through it and came back. *)
Lemma walk_root_key fuel rtp (V : gset string) y e next :
  walk fuel rtp V y = Some e → OD.get (we_root e) rtp = Some next →
  we_root e ∈ V
  ∨ ∃ fuel' V' e', walk fuel' rtp ({[we_root e]} ∪ V') next = Some e'
                   ∧ we_root e' = we_root e.
Proof.
  revert V y e.
  induction fuel as [|fuel IH]; intros V y e; rewrite walk_unfold;
    destruct (OD.get y rtp) as [nx|] eqn:Hget;
    try (intros [= <-]; simpl; congruence);
    (destruct (decide (y ∈ V)) as [HV|HV];
     [intros [= <-]; simpl; by left|]); try done.
  destruct (walk fuel rtp ({[y]} ∪ V) nx) as [e0|] eqn:Hw; [|done].
  intros [= <-]; simpl; intros Hnext.
  destruct (IH _ _ _ Hw Hnext) as [Hin|Hloop]; [|by right].
  apply elem_of_union in Hin as [Hy%elem_of_singleton|Hin]; [|by left].
  right. exists fuel, V, e0. rewrite Hy in *.
  split; [|done]. congruence.
Qed.

(** The rebuild loop's walk from a child is the edge walk of that child. *)
Lemma resolve_id_child rtp child parent :
  OD.get child rtp = Some parent →
  resolve_id rtp child = resolve_edge rtp child parent.
Proof. no_parameters.
  intros Hget. unfold resolve_id, resolve_edge.
  destruct (find_root_walk rtp {[child]} parent) as (e & Hw & ->).
  apply (find_root_eq (S (length rtp)) _ _ _
           (WalkEnd (we_root e) (we_visited e) (S (we_lookups e)))).
  rewrite walk_unfold, Hget. rewrite decide_False by set_solver.
  by rewrite union_empty_r_L, Hw.
Qed.

Lemma resolve_id_no_edge rtp x : OD.get x rtp = None → resolve_id rtp x = x.
Proof.
  intros Hget. unfold resolve_id.
  apply (find_root_eq 0 _ _ _ (WalkEnd x ∅ 0)). by rewrite walk_unfold, Hget.
Qed.

(** The resolved root of an edge resolves to itself. *)
Lemma resolve_id_root rtp child parent :
  OD.get child rtp = Some parent →
  resolve_id rtp (resolve_edge rtp child parent) = resolve_edge rtp child parent.
Proof. no_parameters.
  intros Hget.
  destruct (OD.get (resolve_edge rtp child parent) rtp) as [next|] eqn:Hr;
    [|by apply resolve_id_no_edge].
  unfold resolve_edge in *.
  destruct (find_root_walk rtp {[child]} parent) as (e & Hw & Heq).
  rewrite Heq in *.
  destruct (walk_root_key _ _ _ _ _ _ Hw Hr) as [Hin|(f' & V' & e' & Hw' & He')].
  - apply elem_of_singleton in Hin. rewrite Hin.
    rewrite (resolve_id_child _ _ _ Hget). unfold resolve_edge.
    by rewrite (find_root_eq _ _ _ _ _ Hw).
  - destruct (walk_shrink_visited f' rtp ({[we_root e]} ∪ V') {[we_root e]}
                next e') as (e'' & Hw'' & He''); [set_solver|done|set_solver|].
    unfold resolve_id. rewrite <- He' at 2. rewrite <- He''.
    apply (find_root_eq (S f') _ _ _
      (WalkEnd (we_root e'') (we_visited e'') (S (we_lookups e'')))).
    rewrite walk_unfold, Hr. rewrite decide_False by set_solver.
    by rewrite union_empty_r_L, Hw''.
Qed.

(** ** Chains *)

Lemma od_In_get k v (d : OD.t) : NoDup d.*1 → (k, v) ∈ d → OD.get k d = Some v.
Proof.
  induction d as [|[k' v'] d IH]; simpl; [by intros _ ?%elem_of_nil|].
  intros [Hk Hd]%NoDup_cons [[= -> ->]|Hin]%elem_of_cons.
  - by rewrite decide_True.
  - rewrite decide_False; [by apply IH|].
    intros ->. apply Hk. apply list_elem_of_fmap. by exists (k', v).
Qed.

Lemma od_set_keys k v (d : OD.t) x :
  x ∈ (OD.set k v d).*1 ↔ x = k ∨ x ∈ d.*1.
Proof. no_parameters.
  induction d as [|[k' v'] d IH]; simpl; [set_solver|].
  destruct (decide (k = k')) as [->|Hne]; simpl; set_solver.
Qed.

Lemma od_set_NoDup k v (d : OD.t) : NoDup d.*1 → NoDup (OD.set k v d).*1.
Proof.
  induction d as [|[k' v'] d IH]; simpl; [intros _; apply NoDup_singleton|].
  intros [Hk Hd]%NoDup_cons.
  destruct (decide (k = k')) as [->|Hne]; simpl; apply NoDup_cons;
    (split; [|by auto]); [done|].
  rewrite od_set_keys. intros [?|?]; done.
Qed.

Lemma find_self_replies_NoDup tweet_map raw_tweets :
  NoDup (find_self_replies tweet_map raw_tweets).2.*1.
Proof.
  unfold find_self_replies.
  assert (∀ acc : gset string * OD.t, NoDup acc.2.*1 →
            NoDup (foldl (record_self_reply tweet_map) acc raw_tweets).2.*1)
    as H; [|apply H, NoDup_nil; done].
  induction raw_tweets as [|t l IH]; intros acc Hacc; simpl; [done|].
  apply IH. unfold record_self_reply.
  destruct (self_reply_parent tweet_map t); simpl; [|done].
  by apply od_set_NoDup.
Qed.

Lemma elem_of_root_ids rtp r :
  r ∈ compute_root_ids rtp ↔
  ∃ child parent, (child, parent) ∈ rtp ∧ r = resolve_edge rtp child parent.
Proof.
  unfold compute_root_ids. rewrite elem_of_list_to_set, list_elem_of_fmap.
  split.
  - intros ([c p] & -> & Hin). eauto.
  - intros (c & p & Hin & ->). by exists (c, p).
Qed.

Lemma elem_of_chain_ids rtp root_id x :
  x ∈ chain_ids rtp root_id ↔
  x = root_id
  ∨ ∃ parent, (x, parent) ∈ rtp ∧ resolve_edge rtp x parent = root_id.
Proof.
  unfold chain_ids.
  rewrite elem_of_union, elem_of_singleton, elem_of_list_to_set,
    list_elem_of_fmap.
  split; (intros [?|H]; [by left|right]).
  - destruct H as ([c p] & -> & [Hr Hin]%list_elem_of_filter). eauto.
  - destruct H as (p & Hin & Hr). exists (x, p). split; [done|].
    by apply list_elem_of_filter.
Qed.

Lemma elem_of_merged_ids rtp (thread_texts : gmap string (list string)) x :
  x ∈ compute_merged_ids rtp thread_texts ↔
  ∃ root_id, is_Some (thread_texts !! root_id) ∧ x ∈ chain_ids rtp root_id.
Proof.
  unfold compute_merged_ids. rewrite elem_of_union_list. split.
  - intros (X & (r & -> & Hr%elem_of_elements%elem_of_dom)%list_elem_of_fmap & Hx).
    eauto.
  - intros (r & Hr & Hx). exists (chain_ids rtp r). split; [|done].
    apply list_elem_of_fmap. exists r. split; [done|].
    by apply elem_of_elements, elem_of_dom.
Qed.

(** With texts recorded for detected roots only, the test
    [tweet_id in merged_ids] says that the resolved root of the id has
    recorded texts. *)
Lemma merged_ids_resolve rtp (thread_texts : gmap string (list string)) x :
  NoDup rtp.*1 → dom thread_texts ⊆ compute_root_ids rtp →
  x ∈ compute_merged_ids rtp thread_texts ↔
  is_Some (thread_texts !! resolve_id rtp x).
Proof.
  intros Hwf Hdom. rewrite elem_of_merged_ids. split.
  - intros (r & Hr & [->|(p & Hin & Hres)]%elem_of_chain_ids).
    + assert (r ∈ compute_root_ids rtp) as (c & p & Hin & ->)%elem_of_root_ids
        by by apply Hdom, elem_of_dom.
      by rewrite (resolve_id_root _ _ _ (od_In_get _ _ _ Hwf Hin)).
    + by rewrite (resolve_id_child _ _ _ (od_In_get _ _ _ Hwf Hin)), Hres.
  - intros Hr. exists (resolve_id rtp x). split; [done|].
    apply elem_of_chain_ids.
    destruct (OD.get x rtp) as [p|] eqn:Hget.
    + right. exists p. split; [by apply list_elem_of_In, od_get_In|].
      by rewrite (resolve_id_child _ _ _ Hget).
    + left. by rewrite resolve_id_no_edge.
Qed.

(** ** Hydration records detected roots only *)

Lemma fallback_dom root_id tweet_map rtp
    (thread_texts : gmap string (list string)) st o thread_texts' st' :
  _fallback_thread_from_batch root_id tweet_map rtp thread_texts st
    = (o, thread_texts', st') →
  dom thread_texts' ⊆ {[root_id]} ∪ dom thread_texts.
Proof. no_parameters.
  unfold _fallback_thread_from_batch.
  destruct (1 <? length _)%nat; [|intros [= _ <- _]; set_solver].
  destruct (py_sort _ _) as [sorted|]; [|intros [= _ <- _]; set_solver].
  destruct (map _ sorted); intros [= _ <- _]; [set_solver|].
  rewrite dom_insert_L. set_solver.
Qed.

Lemma hydrate_dom thread_api tweet_map rtp roots thread_fetches
    (thread_texts : gmap string (list string)) st o thread_texts' st' :
  hydrate thread_api tweet_map rtp roots thread_fetches thread_texts st
    = (o, thread_texts', st') →
  dom thread_texts' ⊆ dom thread_texts ∪ list_to_set roots.
Proof. no_parameters.
  revert thread_fetches thread_texts st.
  induction roots as [|r roots IH]; intros tf texts0 st; simpl;
    [intros [= _ <- _]; set_solver|].
  destruct (decide _); [intros [= _ <- _]; set_solver|].
  destruct (thread_api r) as [msg|thread].
  - destruct (_fallback_thread_from_batch _ _ _ _ _) as [[[e|] m] s0] eqn:Hf;
      apply fallback_dom in Hf.
    + intros [= _ <- _]. set_solver.
    + intros H%IH. set_solver.
  - destruct (remote_texts thread).
    + destruct (_fallback_thread_from_batch _ _ _ _ _) as [[[e|] m] s0] eqn:Hf;
        apply fallback_dom in Hf.
      * intros [= _ <- _]. set_solver.
      * intros H%IH. set_solver.
    + intros H%IH. rewrite dom_insert_L in H. set_solver.
Qed.

Lemma set_order_elem s x : x ∈ set_order s ↔ x ∈ s.
Proof using Type*. by rewrite set_order_perm, elem_of_elements. Qed.

Lemma hydrate_roots_only thread_api tweet_map rtp st o
    (thread_texts : gmap string (list string)) st' :
  hydrate thread_api tweet_map rtp (set_order (compute_root_ids rtp)) 0 ∅ st
    = (o, thread_texts, st') →
  dom thread_texts ⊆ compute_root_ids rtp.
Proof using Type*.
  intros H%hydrate_dom. intros x Hx. apply H in Hx.
  rewrite dom_empty_L, elem_of_union, elem_of_list_to_set in Hx.
  destruct Hx as [Hx|Hx]; [set_solver|]. by apply set_order_elem.
Qed.

(** ** The rebuild loop is the merger of the specification *)

Lemma rebuild_by_chain user rtp (thread_texts : gmap string (list string))
    used_roots earlier results :
  NoDup rtp.*1 → dom thread_texts ⊆ compute_root_ids rtp →
  (∀ r, is_Some (thread_texts !! r) →
        r ∈ used_roots ↔ Exists (λ q, chain_root_of rtp q = r) earlier) →
  rebuild user rtp thread_texts (compute_merged_ids rtp thread_texts)
    used_roots results
  = merge_by_chain user rtp thread_texts earlier results.
Proof. no_parameters.
  intros Hwf Hdom. revert used_roots earlier.
  induction results as [|p rest IH]; intros used earlier Hinv; simpl; [done|].
  pose proof (merged_ids_resolve rtp thread_texts (last_segment (url p))
                Hwf Hdom) as Hm.
  change (resolve_id rtp (last_segment (url p)))
    with (chain_root_of rtp p) in *.
  destruct (thread_texts !! chain_root_of rtp p) as [texts|] eqn:Ht.
  - rewrite decide_True by (apply Hm; eauto).
    pose proof (Hinv (chain_root_of rtp p) (ltac:(eauto))) as Hu.
    destruct (decide (chain_root_of rtp p ∈ used)) as [Hin|Hnin].
    + rewrite decide_True by by apply Hu. simpl. apply IH.
      intros r Hr. rewrite (Hinv r Hr), Exists_app, Exists_cons, Exists_nil.
      pose proof (proj1 Hu Hin). split; [tauto|].
      intros [?|[<-|[]]]; done.
    + rewrite decide_False by (by rewrite <- Hu). simpl. f_equal. apply IH.
      intros r Hr. rewrite elem_of_union, elem_of_singleton, (Hinv r Hr),
        Exists_app, Exists_cons, Exists_nil. naive_solver.
  - rewrite decide_False by (rewrite Hm; by intros [? ?]).
    simpl. f_equal. apply IH.
    intros r Hr. rewrite (Hinv r Hr), Exists_app, Exists_cons, Exists_nil.
    split; [tauto|]. intros [?|[<-|[]]]; [done|].
    rewrite Ht in Hr. by destruct Hr.
Qed.

Lemma merge_by_chain_empty user rtp earlier results :
  merge_by_chain user rtp ∅ earlier results = results.
Proof.
  revert earlier. induction results as [|p rest IH]; intros earlier; simpl;
    [done|]. by rewrite lookup_empty, IH.
Qed.

Lemma no_self_replies_no_edges tweet_map raw_tweets :
  (find_self_replies tweet_map raw_tweets).1 = ∅ →
  (find_self_replies tweet_map raw_tweets).2 = [].
Proof. no_parameters.
  unfold find_self_replies.
  assert (∀ acc : gset string * OD.t,
            (foldl (record_self_reply tweet_map) acc raw_tweets).1 = ∅ →
            acc.1 = ∅
            ∧ (foldl (record_self_reply tweet_map) acc raw_tweets).2 = acc.2)
    as H; [|by intros [_ ->]%H].
  induction raw_tweets as [|t l IH]; intros acc; simpl; [done|].
  intros [Hacc ->]%IH. unfold record_self_reply in *.
  destruct (self_reply_parent tweet_map t); [|done].
  simpl in Hacc. set_solver.
Qed.

Lemma set_order_empty : set_order ∅ = [].
Proof using Type*. apply Permutation_nil. by rewrite set_order_perm, elements_empty. Qed.

Lemma merge_threads_eq thread_api user results raw_tweets st
    (thread_texts : gmap string (list string)) st' :
  let tweet_map := build_tweet_map raw_tweets in
  let rtp := (find_self_replies tweet_map raw_tweets).2 in
  hydrate thread_api tweet_map rtp (set_order (compute_root_ids rtp)) 0 ∅ st
    = (None, thread_texts, st') →
  _merge_threads thread_api user results raw_tweets st
  = (inr (merge_by_chain user rtp thread_texts [] results), st').
Proof using Type*. no_parsers.
  intros tweet_map rtp Hh. unfold _merge_threads. fold tweet_map.
  pose proof (no_self_replies_no_edges tweet_map raw_tweets) as Hnone.
  pose proof (find_self_replies_NoDup tweet_map raw_tweets) as Hwf.
  fold rtp in Hnone, Hwf, Hh |- *.
  destruct (find_self_replies tweet_map raw_tweets) as [self_replies rtp0].
  simpl in rtp. subst rtp.
  destruct (decide (self_replies = ∅)) as [He|Hne].
  - rewrite (Hnone He) in Hh. unfold compute_root_ids in Hh. simpl in Hh.
    rewrite set_order_empty in Hh. simpl in Hh.
    injection Hh as <- <-. by rewrite merge_by_chain_empty.
  - rewrite Hh. destruct (decide (thread_texts = ∅)) as [->|Hne'].
    + by rewrite merge_by_chain_empty.
    + f_equal. f_equal. apply rebuild_by_chain; [done| |].
      * by eapply hydrate_roots_only.
      * intros r _. rewrite Exists_nil. set_solver.
Qed.

(** ** What a call does to the statistics and to the trace *)

Lemma same_accounts_refl s : same_accounts s s.
Proof. by repeat split. Qed.

Lemma same_accounts_trans s1 s2 s3 :
  same_accounts s1 s2 → same_accounts s2 s3 → same_accounts s1 s3.
Proof. no_parameters. unfold same_accounts. intuition congruence. Qed.

Lemma fallback_frame root_id tweet_map rtp
    (thread_texts : gmap string (list string)) st o thread_texts' st' :
  _fallback_thread_from_batch root_id tweet_map rtp thread_texts st
    = (o, thread_texts', st') →
  trace st' = trace st ∧ same_accounts (stats st) (stats st').
Proof.
  unfold _fallback_thread_from_batch.
  destruct (1 <? length _)%nat;
    [|intros [= _ _ <-]; split; [done|apply same_accounts_refl]].
  destruct (py_sort _ _) as [sorted|];
    [|intros [= _ _ <-]; split; [done|apply same_accounts_refl]].
  destruct (map _ sorted); intros [= _ _ <-];
    (split; [done|]); by repeat split.
Qed.

Ltac forall_events :=
  repeat first [apply Forall_nil_2 | apply Forall_cons_2]; done.

Lemma hydrate_frame thread_api tweet_map rtp roots thread_fetches
    (thread_texts : gmap string (list string)) st o thread_texts' st' :
  hydrate thread_api tweet_map rtp roots thread_fetches thread_texts st
    = (o, thread_texts', st') →
  same_accounts (stats st) (stats st')
  ∧ ∃ evs, trace st' = trace st ++ evs ∧ Forall is_hydration_event evs.
Proof.
  revert thread_fetches thread_texts st.
  induction roots as [|r roots IH]; intros tf texts0 st; simpl.
  { intros [= _ _ <-]. split; [apply same_accounts_refl|].
    exists []. by rewrite app_nil_r. }
  destruct (decide _).
  { intros [= _ _ <-]. split; [apply same_accounts_refl|].
    exists []. by rewrite app_nil_r. }
  assert (is_hydration_event (EvGetTweetById r)) as Hev1 by (left; eauto).
  assert (is_hydration_event (EvSleep (request_delay cfg))) as Hev2
    by by right.
  destruct (thread_api r) as [msg|thread].
  - destruct (_fallback_thread_from_batch _ _ _ _ _) as [[[e|] m] s0] eqn:Hf;
      apply fallback_frame in Hf as [Htr Hst]; simpl in Htr, Hst.
    + intros [= _ _ <-]. split; [done|]. exists [EvGetTweetById r].
      split; [done|]. forall_events.
    + intros (Hst' & evs & Htr' & Hevs)%IH.
      split; [by eapply same_accounts_trans|].
      exists (EvGetTweetById r :: evs). rewrite Htr', Htr.
      split; [by rewrite <- app_assoc|]. forall_events.
  - destruct (remote_texts thread).
    + destruct (_fallback_thread_from_batch _ _ _ _ _) as [[[e|] m] s0] eqn:Hf;
        apply fallback_frame in Hf as [Htr Hst]; simpl in Htr, Hst.
      * intros [= _ _ <-]. split; [done|].
        exists [EvGetTweetById r; EvSleep (request_delay cfg)].
        split; [done|]. forall_events.
      * intros (Hst' & evs & Htr' & Hevs)%IH.
        split; [by eapply same_accounts_trans|].
        exists (EvGetTweetById r :: EvSleep (request_delay cfg) :: evs).
        rewrite Htr', Htr. split; [by rewrite <- app_assoc|].
        forall_events.
    + intros (Hst' & evs & Htr' & Hevs)%IH. simpl in Hst', Htr'.
      split; [eapply same_accounts_trans; [|done]; by repeat split|].
      exists (EvGetTweetById r :: EvSleep (request_delay cfg) :: evs).
      rewrite Htr'. split; [by rewrite <- app_assoc|].
      forall_events.
Qed.

Lemma merge_threads_frame thread_api user results raw_tweets st r st' :
  _merge_threads thread_api user results raw_tweets st = (r, st') →
  same_accounts (stats st) (stats st')
  ∧ ∃ evs, trace st' = trace st ++ evs ∧ Forall is_hydration_event evs.
Proof.
  unfold _merge_threads.
  destruct (find_self_replies _ _) as [self_replies rtp].
  destruct (decide _).
  { intros [= _ <-]. split; [apply same_accounts_refl|].
    exists []. by rewrite app_nil_r. }
  destruct (hydrate _ _ _ _ _ _ _) as [[[e|] m] s0] eqn:Hh;
    apply hydrate_frame in Hh; [by intros [= _ <-]|].
  destruct (decide _); by intros [= _ <-].
Qed.

(** ** The age filter *)

Lemma scan_tweets_spec user cutoff tweets results filtered_count :
  scan_tweets user cutoff tweets results filtered_count
  = (results ++ (tweet_data_of user <$> filter (kept cutoff) tweets),
     (filtered_count + length (filter (dropped_old cutoff) tweets))%nat).
Proof.
  revert results filtered_count.
  induction tweets as [|t l IH]; intros results fc; simpl.
  { by rewrite app_nil_r, Nat.add_0_r. }
  destruct (tw_retweeted_tweet t) eqn:Hr; [|destruct (too_old cutoff t) eqn:Ho].
  - rewrite !filter_cons_False by (unfold kept, dropped_old; rewrite ?Hr, ?Ho; simpl; tauto).
    by rewrite IH.
  - rewrite filter_cons_False by (unfold kept; rewrite ?Hr, ?Ho; simpl; tauto).
    rewrite filter_cons_True by (unfold dropped_old; rewrite ?Hr, ?Ho; simpl; tauto).
    rewrite IH. simpl. f_equal. lia.
  - rewrite filter_cons_True by (unfold kept; rewrite ?Hr, ?Ho; simpl; tauto).
    rewrite filter_cons_False by (unfold dropped_old; rewrite ?Hr, ?Ho; simpl; tauto).
    rewrite IH. simpl. by rewrite <- app_assoc.
Qed.




Lemma process_tweets_frame user cutoff tweets thread_api st r st' :
  process_tweets user cutoff tweets thread_api st = (r, st') →
  let n := length (filter (dropped_old cutoff) tweets) in
  total_accounts (stats st') = total_accounts (stats st)
  ∧ failed_accounts (stats st') = failed_accounts (stats st)
  ∧ errors (stats st') = errors (stats st)
  ∧ filtered_old_tweets (stats st') = (filtered_old_tweets (stats st) + n)%nat
  ∧ successful_accounts (stats st')
    = (successful_accounts (stats st) + if r is inr _ then 1 else 0)%nat
  ∧ total_tweets (stats st')
    = (total_tweets (stats st) + if r is inr results then length results else 0)%nat
  ∧ ∃ evs, trace st' = trace st ++ evs ∧ Forall is_hydration_event evs.
Proof.
  unfold process_tweets. rewrite scan_tweets_spec. simpl.
  set (n := length (filter (dropped_old cutoff) tweets)).
  set (results := tweet_data_of user <$> filter (kept cutoff) tweets).
  set (st1 := if (0 <? n)%nat then with_stats (add_filtered n) st else st).
  assert (trace st1 = trace st
          ∧ total_accounts (stats st1) = total_accounts (stats st)
          ∧ successful_accounts (stats st1) = successful_accounts (stats st)
          ∧ failed_accounts (stats st1) = failed_accounts (stats st)
          ∧ total_tweets (stats st1) = total_tweets (stats st)
          ∧ filtered_old_tweets (stats st1)
            = (filtered_old_tweets (stats st) + n)%nat
          ∧ errors (stats st1) = errors (stats st))
    as (Htr & H1 & H2 & H3 & H4 & H5 & H6).
  { subst st1. destruct (0 <? n)%nat eqn:Hn; simpl; [done|].
    apply Nat.ltb_ge in Hn. repeat split; lia. }
  clearbody st1.
  assert (∃ r0 st2,
    (if enable_thread_merging cfg && negb (bool_decide (results = []))
     then _merge_threads thread_api user results tweets st1
     else (inr results, st1)) = (r0, st2)
    ∧ same_accounts (stats st1) (stats st2)
    ∧ ∃ evs, trace st2 = trace st1 ++ evs ∧ Forall is_hydration_event evs)
    as (r0 & st2 & -> & (G1 & G2 & G3 & G4 & G5 & G6) & evs & Hevs & Hall).
  { destruct (_ && _).
    - destruct (_merge_threads _ _ _ _ _) as [r0 st2] eqn:Hm.
      exists r0, st2. split; [done|]. by eapply merge_threads_frame.
    - exists (inr results), st1. split; [done|].
      split; [apply same_accounts_refl|]. exists []. by rewrite app_nil_r. }
  destruct r0 as [e|results']; intros [= <- <-]; simpl;
    (split_and!; [congruence|congruence|congruence|congruence| | |]);
    try (exists evs; split; [congruence|done]); lia.
Qed.



(** ** The retry loop *)

Lemma run_attempt_frame remote user count cutoff attempt st r st' :
  run_attempt remote user count cutoff attempt st = (r, st') →
  total_accounts (stats st') = total_accounts (stats st)
  ∧ failed_accounts (stats st') = failed_accounts (stats st)
  ∧ errors (stats st') = errors (stats st)
  ∧ successful_accounts (stats st')
    = (successful_accounts (stats st) + if r is inr _ then 1 else 0)%nat
  ∧ total_tweets (stats st')
    = (total_tweets (stats st) + if r is inr results then length results else 0)%nat
  ∧ ∃ evs, trace st' = trace st ++ EvGetTweets user count :: evs
           ∧ Forall is_hydration_event evs.
Proof.
  unfold run_attempt. destruct (remote attempt) as [msg|tweets thread_api].
  - intros [= <- <-]. simpl. split_and!; try done; try lia.
    by exists [].
  - intros (H1 & H2 & H3 & _ & H4 & H5 & evs & Htr & Hevs)%process_tweets_frame.
    simpl in *. split_and!; try done.
    exists evs. by rewrite Htr, <- app_assoc.
Qed.

Lemma attempts_unfold remote user count cutoff remaining attempt st :
  attempts remote user count cutoff (S remaining) attempt st =
  match run_attempt remote user count cutoff attempt st with
  | (inr results, st1) => (results, st1)
  | (inl error_msg, st1) =>
      if is_rate_limit error_msg && retry_on_rate_limit cfg
         && (Z.of_nat attempt <? max_retries cfg)
      then attempts remote user count cutoff remaining (S attempt)
             (emit [EvSleep ((Z.of_nat attempt + 1) * 30)] st1)
      else ([], with_stats (add_failure (failure_entry user error_msg)) st1)
  end.
Proof. done. Qed.

(** One call records at most one failure, and a failure comes with an
    empty result. *)
Lemma attempts_outcome remote user count cutoff remaining attempt st r st' :
  attempts remote user count cutoff remaining attempt st = (r, st') →
  (failed_accounts (stats st') = failed_accounts (stats st)
   ∧ errors (stats st') = errors (stats st))
  ∨ (r = []
     ∧ failed_accounts (stats st') = (failed_accounts (stats st) + 1)%nat
     ∧ successful_accounts (stats st') = successful_accounts (stats st)
     ∧ ∃ error_msg,
         errors (stats st') = errors (stats st) ++ [failure_entry user error_msg]).
Proof.
  revert attempt st.
  induction remaining as [|remaining IH]; intros attempt st.
  { intros [= <- <-]. by left. }
  rewrite attempts_unfold.
  destruct (run_attempt _ _ _ _ _ _) as [[error_msg|results] st1] eqn:Hrun;
    apply run_attempt_frame in Hrun as (H1 & H2 & H3 & H4 & H5 & _).
  - destruct (_ && _).
    + intros [Hs|Hf]%IH; simpl in *; [left|right]; [naive_solver congruence|].
      destruct Hf as (-> & F1 & F2 & msg & F3).
      split_and!; [done|lia|lia|]. exists msg. congruence.
    + intros [= <- <-]. right. simpl.
      split_and!; [done|lia|lia|]. exists error_msg. congruence.
  - intros [= <- <-]. left. split; congruence.
Qed.

(** C6. When an attempt of a per-account fetch fails with an error that
    is not a rate-limit error, or with a rate-limit error when retrying
    is off or the retries are used up, the fetch ends there: it returns
    the empty list, [failed_accounts] grows by one, one entry naming the
    account and the error text is appended to [errors], and nothing else
    is counted.  A whole call returns a list in every case and records at
    most one failure. *)
Theorem failure_recorded remote user count :
  (∀ cutoff remaining attempt st error_msg st1,
     run_attempt remote user count cutoff attempt st = (inl error_msg, st1) →
     is_rate_limit error_msg = false ∨ retry_on_rate_limit cfg = false
       ∨ max_retries cfg ≤ Z.of_nat attempt →
     ∃ st', attempts remote user count cutoff (S remaining) attempt st = ([], st')
       ∧ failed_accounts (stats st') = (failed_accounts (stats st) + 1)%nat
       ∧ errors (stats st')
         = errors (stats st) ++ ["@" +:+ user +:+ ": " +:+ error_msg]
       ∧ successful_accounts (stats st') = successful_accounts (stats st)
       ∧ total_tweets (stats st') = total_tweets (stats st)
       ∧ trace st' = trace st1)
  ∧ (∀ now st,
       ∃ results st', get_user_tweets now remote user count st = (results, st')
         ∧ ((failed_accounts (stats st') = failed_accounts (stats st)
             ∧ errors (stats st') = errors (stats st))
            ∨ (results = []
               ∧ failed_accounts (stats st') = (failed_accounts (stats st) + 1)%nat
               ∧ successful_accounts (stats st') = successful_accounts (stats st)
               ∧ ∃ error_msg,
                   errors (stats st')
                   = errors (stats st) ++ ["@" +:+ user +:+ ": " +:+ error_msg]))).
Proof.
  split.
  - intros cutoff remaining attempt st error_msg st1 Hrun Hwhy.
    rewrite attempts_unfold, Hrun.
    apply run_attempt_frame in Hrun as (H1 & H2 & H3 & H4 & H5 & _).
    assert (is_rate_limit error_msg && retry_on_rate_limit cfg
            && (Z.of_nat attempt <? max_retries cfg) = false) as ->.
    { destruct Hwhy as [->|[->|Hle]]; [done|by rewrite andb_false_r|].
      apply Z.ltb_ge in Hle. by rewrite Hle, andb_false_r. }
    eexists. split; [done|]. simpl.
    split_and!; [lia|by rewrite H3|lia|lia|done].
  - intros now st. unfold get_user_tweets.
    destruct (attempts _ _ _ _ _ _ _) as [results st'] eqn:Ha.
    exists results, st'. split; [done|]. by eapply attempts_outcome.
Qed.

(** C5, as the code has it.  With [retry_on_rate_limit] on: an attempt
    [i < max_retries] that fails with a rate-limit error is followed by
    one sleep of [(i + 1) * 30] and by attempt [i + 1]; and when attempts
    0 and 1 fail with rate-limit errors and attempt 2 succeeds, the call
    made exactly the two backoff sleeps 30 and 60 before the third
    request, returns the result of that attempt, adds one to
    [successful_accounts] and leaves [errors] and [failed_accounts] as
    they were. *)
Theorem rate_limit_backoff remote user count :
  retry_on_rate_limit cfg = true →
  (∀ cutoff remaining attempt st error_msg st1,
     run_attempt remote user count cutoff attempt st = (inl error_msg, st1) →
     is_rate_limit error_msg = true →
     Z.of_nat attempt < max_retries cfg →
     attempts remote user count cutoff (S remaining) attempt st
     = attempts remote user count cutoff remaining (S attempt)
         (emit [EvSleep ((Z.of_nat attempt + 1) * 30)] st1)
     ∧ (Z.of_nat (S remaining) = max_retries cfg + 1 - Z.of_nat attempt →
        (0 < remaining)%nat))
  ∧ (∀ now st msg0 msg1 tweets thread_api results st2,
       remote 0%nat = FR_raise msg0 → is_rate_limit msg0 = true →
       remote 1%nat = FR_raise msg1 → is_rate_limit msg1 = true →
       remote 2%nat = FR_tweets tweets thread_api →
       2 ≤ max_retries cfg →
       process_tweets user (cutoff_date now) tweets thread_api
         (emit [EvGetTweets user count; EvSleep 30;
                EvGetTweets user count; EvSleep 60;
                EvGetTweets user count] st) = (inr results, st2) →
       get_user_tweets now remote user count st = (results, st2)
       ∧ successful_accounts (stats st2)
         = (successful_accounts (stats st) + 1)%nat
       ∧ errors (stats st2) = errors (stats st)
       ∧ failed_accounts (stats st2) = failed_accounts (stats st)
       ∧ ∃ evs, trace st2
                = trace st ++ [EvGetTweets user count; EvSleep 30;
                               EvGetTweets user count; EvSleep 60;
                               EvGetTweets user count] ++ evs
                ∧ Forall is_hydration_event evs).
Proof.
  intros Hretry. split.
  - intros cutoff remaining attempt st error_msg st1 Hrun Hrate Hlt.
    split; [|lia].
    rewrite attempts_unfold, Hrun, Hrate, Hretry.
    by rewrite (proj2 (Z.ltb_lt _ _) Hlt).
  - intros now st msg0 msg1 tweets thread_api results st2
      H0 Hr0 H1 Hr1 H2 Hmax Hp.
    unfold get_user_tweets.
    destruct (Z.to_nat (max_retries cfg + 1)) as [|[|[|n]]] eqn:Hn; try lia.
    rewrite attempts_unfold. unfold run_attempt at 1.
    rewrite H0, Hr0, Hretry, (proj2 (Z.ltb_lt _ _)) by (simpl; lia).
    rewrite attempts_unfold. unfold run_attempt at 1.
    rewrite H1, Hr1, Hretry, (proj2 (Z.ltb_lt _ _)) by (simpl; lia).
    rewrite attempts_unfold. unfold run_attempt at 1. rewrite H2.
    assert (∀ s, emit [EvGetTweets user count]
              (emit [EvSleep ((Z.of_nat 1 + 1) * 30)]
                (emit [EvGetTweets user count]
                  (emit [EvSleep ((Z.of_nat 0 + 1) * 30)]
                    (emit [EvGetTweets user count] s))))
            = emit [EvGetTweets user count; EvSleep 30;
                    EvGetTweets user count; EvSleep 60;
                    EvGetTweets user count] s) as Hemit.
    { intros s0. unfold emit. simpl. f_equal. by rewrite <- !app_assoc. }
    simpl andb. cbv iota. rewrite Hemit, Hp.
    apply process_tweets_frame in Hp
      as (_ & F1 & F2 & _ & F3 & _ & evs & Htr & Hevs).
    simpl in *. split_and!; [done|done|done|done|].
    exists evs. split; [|done]. by rewrite Htr, <- app_assoc.
Qed.

(** ** Results do not depend on the statistics *)

Lemma fallback_indep root_id tweet_map rtp
    (thread_texts : gmap string (list string)) st st0 :
  (_fallback_thread_from_batch root_id tweet_map rtp thread_texts st).1
  = (_fallback_thread_from_batch root_id tweet_map rtp thread_texts st0).1.
Proof.
  unfold _fallback_thread_from_batch.
  destruct (1 <? length _)%nat; [|done].
  destruct (py_sort _ _) as [sorted|]; [|done].
  by destruct (map _ sorted).
Qed.

Lemma hydrate_indep thread_api tweet_map rtp roots thread_fetches
    (thread_texts : gmap string (list string)) st st0 :
  (hydrate thread_api tweet_map rtp roots thread_fetches thread_texts st).1
  = (hydrate thread_api tweet_map rtp roots thread_fetches thread_texts st0).1.
Proof.
  revert thread_fetches thread_texts st st0.
  induction roots as [|r roots IH]; intros tf texts0 st st0; simpl; [done|].
  destruct (decide _); [done|].
  destruct (thread_api r) as [msg|thread].
  - pose proof (fallback_indep r tweet_map rtp texts0
      (emit [EvGetTweetById r] st) (emit [EvGetTweetById r] st0)) as Hf.
    destruct (_fallback_thread_from_batch _ _ _ _ (emit _ st)) as [[o m] s1],
      (_fallback_thread_from_batch _ _ _ _ (emit _ st0)) as [[o0 m0] s2].
    simpl in Hf. injection Hf as -> ->. destruct o0; [done|apply IH].
  - destruct (remote_texts thread); [|apply IH].
    pose proof (fallback_indep r tweet_map rtp texts0
      (emit [EvGetTweetById r; EvSleep (request_delay cfg)] st)
      (emit [EvGetTweetById r; EvSleep (request_delay cfg)] st0)) as Hf.
    destruct (_fallback_thread_from_batch _ _ _ _ (emit _ st)) as [[o m] s1],
      (_fallback_thread_from_batch _ _ _ _ (emit _ st0)) as [[o0 m0] s2].
    simpl in Hf. injection Hf as -> ->. destruct o0; [done|apply IH].
Qed.

Lemma merge_threads_indep thread_api user results raw_tweets st st0 :
  (_merge_threads thread_api user results raw_tweets st).1
  = (_merge_threads thread_api user results raw_tweets st0).1.
Proof.
  unfold _merge_threads.
  destruct (find_self_replies _ _) as [self_replies rtp].
  destruct (decide _); [done|].
  pose proof (hydrate_indep thread_api (build_tweet_map raw_tweets) rtp
    (set_order (compute_root_ids rtp)) 0 ∅ st st0) as Hh.
  destruct (hydrate _ _ _ _ _ _ st) as [[o m] s1],
    (hydrate _ _ _ _ _ _ st0) as [[o0 m0] s2].
  simpl in Hh. injection Hh as -> ->. destruct o0; [done|].
  by destruct (decide _).
Qed.

Lemma process_tweets_indep user cutoff tweets thread_api st st0 :
  (process_tweets user cutoff tweets thread_api st).1
  = (process_tweets user cutoff tweets thread_api st0).1.
Proof.
  unfold process_tweets.
  destruct (scan_tweets _ _ _ _ _) as [results n].
  destruct (_ && _); [|done].
  set (s1 := if (0 <? n)%nat then _ else st).
  set (s2 := if (0 <? n)%nat then _ else st0).
  pose proof (merge_threads_indep thread_api user results tweets s1 s2) as Hm.
  destruct (_merge_threads _ _ _ _ s1) as [r1 t1],
    (_merge_threads _ _ _ _ s2) as [r2 t2].
  simpl in Hm. subst r2. by destruct r1.
Qed.

Lemma run_attempt_indep remote user count cutoff attempt st st0 :
  (run_attempt remote user count cutoff attempt st).1
  = (run_attempt remote user count cutoff attempt st0).1.
Proof.
  unfold run_attempt. destruct (remote attempt); [done|].
  apply process_tweets_indep.
Qed.

Lemma attempts_indep remote user count cutoff remaining attempt st st0 :
  (attempts remote user count cutoff remaining attempt st).1
  = (attempts remote user count cutoff remaining attempt st0).1.
Proof.
  revert attempt st st0.
  induction remaining as [|remaining IH]; intros attempt st st0; [done|].
  rewrite !attempts_unfold.
  pose proof (run_attempt_indep remote user count cutoff attempt st st0) as Hr.
  destruct (run_attempt _ _ _ _ _ st) as [r1 s1],
    (run_attempt _ _ _ _ _ st0) as [r2 s2].
  simpl in Hr. subst r2. destruct r1 as [e|results]; [|done].
  destruct (_ && _); [apply IH|done].
Qed.

Lemma get_user_tweets_indep now remote user count st st0 :
  (get_user_tweets now remote user count st).1
  = (get_user_tweets now remote user count st0).1.
Proof. apply attempts_indep. Qed.

(** ** The batch driver *)

Lemma flatten_slots_Some (l : list (list Post)) :
  flatten_slots (Some <$> l) = concat l.
Proof.
  unfold flatten_slots. induction l as [|x l IH]; simpl; [done|].
  f_equal. exact IH.
Qed.

Lemma run_task_step now remote usernames count slots st j :
  run_task now remote usernames count (slots, st) j =
  match usernames !! j with
  | Some user =>
      (<[j:=Some (get_user_tweets (now j) (remote j) user count st).1]> slots,
       emit [EvSleep (request_delay cfg)]
         (get_user_tweets (now j) (remote j) user count st).2)
  | None => (slots, st)
  end.
Proof.
  unfold run_task. simpl. destruct (usernames !! j); [|done].
  by destruct (get_user_tweets _ _ _ _ _).
Qed.

Lemma run_tasks_slots now remote usernames count (sts : nat → State)
    completion slots st :
  length slots = length usernames →
  length (foldl (run_task now remote usernames count) (slots, st)
            completion).1 = length usernames
  ∧ ∀ i user, usernames !! i = Some user →
      (foldl (run_task now remote usernames count) (slots, st)
         completion).1 !! i =
      if decide (i ∈ completion)
      then Some (Some (get_user_tweets (now i) (remote i) user count (sts i)).1)
      else slots !! i.
Proof. no_parameters.
  revert slots st.
  induction completion as [|j rest IH]; intros slots st Hlen;
    [split; [done|]; intros i user _; by rewrite decide_False by set_solver|].
  cbn [foldl]. rewrite run_task_step.
  destruct (usernames !! j) as [u|] eqn:Hj.
  - rewrite (get_user_tweets_indep (now j) (remote j) u count st (sts j)).
    set (tweets := (get_user_tweets (now j) (remote j) u count (sts j)).1).
    set (st1 := emit _ _).
    destruct (IH (<[j:=Some tweets]> slots) st1) as [Hl Hslots];
      [by rewrite length_insert|].
    split; [done|]. intros i user Hi. rewrite (Hslots i user Hi).
    destruct (decide (i ∈ rest)) as [Hin|Hnin].
    + by rewrite decide_True by set_solver.
    + destruct (decide (i = j)) as [->|Hne].
      * rewrite decide_True by set_solver.
        rewrite list_lookup_insert_eq
          by (rewrite Hlen; by eapply lookup_lt_Some).
        unfold tweets. congruence.
      * rewrite decide_False by set_solver.
        by rewrite list_lookup_insert_ne.
  - destruct (IH slots st Hlen) as [Hl Hslots]. split; [done|].
    intros i user Hi. rewrite (Hslots i user Hi).
    destruct (decide (i ∈ rest)) as [Hin|Hnin].
    + by rewrite decide_True by set_solver.
    + rewrite decide_False; [done|].
      intros [->|?]%elem_of_cons; [congruence|done].
Qed.

(** C9. Whatever the order in which the tasks complete, the list that
    [fetch_multiple_accounts] returns is the concatenation, in the order
    of [usernames], of what [get_user_tweets] gives for each account:
    every task writes its slot [index] of the pre-sized list and the
    slots are read in order.  (The list an account gets does not depend
    on the statistics the task starts from, [sts i] below.) *)
Theorem submission_order now remote usernames count completion st
    (sts : nat → State) :
  completion ≡ₚ seq 0 (length usernames) →
  (fetch_multiple_accounts now remote usernames count completion st).1
  = concat (imap (λ i user,
                    (get_user_tweets (now i) (remote i) user count (sts i)).1)
                 usernames).
Proof.
  intros Hperm. unfold fetch_multiple_accounts.
  pose proof (run_tasks_slots now remote usernames count sts completion
    (replicate (length usernames) None)
    (with_stats (set_total_accounts (length usernames)) st)
    (length_replicate _ _)) as [Hlen Hslots].
  destruct (foldl _ _ completion) as [slots st1]. simpl in *.
  rewrite <- flatten_slots_Some. f_equal.
  apply list_eq. intros i. rewrite list_lookup_fmap, list_lookup_imap.
  destruct (usernames !! i) as [user|] eqn:Hi; simpl.
  - rewrite (Hslots i user Hi), decide_True; [done|].
    rewrite Hperm, elem_of_seq. apply lookup_lt_Some in Hi. lia.
  - apply lookup_ge_None. rewrite Hlen. by apply lookup_ge_None.
Qed.

(** ** Sorting *)













(** ** The local fallback *)






(** ** One merged entry per chain *)











(** * Further properties of the fetcher *)

(** ** Thread detection *)

Lemma truthy_Some s : truthy (Some s) = true ↔ s ≠ "".
Proof. no_parameters.
  simpl. destruct (String.eqb_spec s ""); simpl; split; congruence.
Qed.

Ltac self_reply_cases tweet_map t :=
  unfold self_reply_parent, is_self_reply_to, truthy;
  destruct (tw_in_reply_to_tweet_id t) as [?|];
    destruct (tw_legacy_reply_user t) as [?|]; simpl;
    repeat (match goal with
            | |- context [String.eqb ?a ?b] => destruct (String.eqb_spec a b)
            | |- context [tweet_map !! ?k] => destruct (tweet_map !! k) eqn:?
            | |- context [decide ?P] => destruct (decide P)
            | |- context [bool_decide ?P] => destruct (bool_decide_reflect P)
            end; simpl);
    naive_solver.

Lemma self_reply_parent_sound tweet_map t parent_id :
  self_reply_parent tweet_map t = Some parent_id →
  is_self_reply_to tweet_map t parent_id.
Proof. no_parameters. self_reply_cases tweet_map t. Qed.

(** X10. A tweet is taken for a self-reply to [parent_id] exactly when it
    answers [parent_id], has a non-empty author id and the answered author
    is the same: the reply metadata decides when it names an author, and
    only without it does the batch decide, by the author of the answered
    tweet when the batch holds that tweet. *)
Theorem self_reply_parent_spec tweet_map t parent_id :
  self_reply_parent tweet_map t = Some parent_id ↔
  is_self_reply_to tweet_map t parent_id.
Proof. no_parameters.
  split.
  - self_reply_cases tweet_map t.
  - revert parent_id. self_reply_cases tweet_map t.
Qed.

Lemma record_self_reply_keys tweet_map raw_tweets (acc : gset string * OD.t) :
  acc.1 = OD.keys acc.2 →
  (foldl (record_self_reply tweet_map) acc raw_tweets).1
  = OD.keys (foldl (record_self_reply tweet_map) acc raw_tweets).2.
Proof. no_parameters.
  revert acc. induction raw_tweets as [|t l IH]; intros acc Hacc; simpl; [done|].
  apply IH. unfold record_self_reply.
  destruct (self_reply_parent tweet_map t) as [p|]; simpl; [|done].
  rewrite Hacc. apply set_eq. intros x. unfold OD.keys.
  rewrite elem_of_union, elem_of_singleton, !elem_of_list_to_set, od_set_keys.
  done.
Qed.

Lemma od_get_set k v (d : OD.t) k' :
  OD.get k' (OD.set k v d) = if decide (k' = k) then Some v else OD.get k' d.
Proof. no_parameters.
  induction d as [|[k0 v0] d IH]; simpl.
  - by destruct (decide (k' = k)).
  - destruct (decide (k = k0)) as [->|Hne]; simpl.
    + by destruct (decide (k' = k0)).
    + destruct (decide (k' = k0)) as [->|Hne'].
      * by rewrite decide_False by done.
      * done.
Qed.

Lemma record_self_reply_edge tweet_map raw_tweets (acc : gset string * OD.t)
    child parent :
  OD.get child (foldl (record_self_reply tweet_map) acc raw_tweets).2
    = Some parent →
  OD.get child acc.2 = Some parent
  ∨ ∃ t, t ∈ raw_tweets ∧ tw_id t = child
         ∧ self_reply_parent tweet_map t = Some parent.
Proof. no_parameters.
  revert acc. induction raw_tweets as [|t l IH]; intros acc; simpl; [by left|].
  intros [Hacc|(t' & Hin & Hid & Hp)]%IH.
  - unfold record_self_reply in Hacc.
    destruct (self_reply_parent tweet_map t) as [p|] eqn:Hp; simpl in Hacc;
      [|by left].
    rewrite od_get_set in Hacc.
    destruct (decide (child = tw_id t)) as [->|Hne]; [|by left].
    injection Hacc as <-. right. exists t. split_and!; [left|done|done].
  - right. exists t'. split_and!; [by right|done|done].
Qed.

(** X11. The reply edges of a batch: [self_replies] is exactly the set of
    ids that hold an edge, and every edge [child -> parent] comes from a
    tweet of the batch with id [child] that passed the self-reply test for
    [parent]. *)
Theorem reply_edges_spec raw_tweets :
  let tweet_map := build_tweet_map raw_tweets in
  let found := find_self_replies tweet_map raw_tweets in
  found.1 = OD.keys found.2
  ∧ ∀ child parent, OD.get child found.2 = Some parent →
      ∃ t, t ∈ raw_tweets ∧ tw_id t = child
           ∧ is_self_reply_to tweet_map t parent.
Proof. no_parameters.
  intros tweet_map found. split.
  - unfold found, find_self_replies. by apply record_self_reply_keys.
  - intros child parent Hget.
    apply record_self_reply_edge in Hget as [Hnil|(t & Hin & Hid & Hp)];
      [done|].
    exists t. split_and!; [done|done|]. by apply self_reply_parent_sound.
Qed.

(** X3. A batch without self-replies (no tweet passes the self-reply test,
    whatever else it answers) leaves the results as they are: no thread
    request is made and the statistics and the trace are untouched. *)
Theorem no_self_replies_no_merging thread_api user results raw_tweets st :
  (∀ t parent_id, t ∈ raw_tweets →
     ¬ is_self_reply_to (build_tweet_map raw_tweets) t parent_id) →
  _merge_threads thread_api user results raw_tweets st = (inr results, st).
Proof. no_parsers.
  intros Hnone. unfold _merge_threads.
  assert (find_self_replies (build_tweet_map raw_tweets) raw_tweets = (∅, []))
    as ->.
  { unfold find_self_replies.
    assert (Forall (λ t, self_reply_parent (build_tweet_map raw_tweets) t = None)
              raw_tweets) as Hall.
    { apply Forall_forall. intros t Hin.
      destruct (self_reply_parent _ t) as [p|] eqn:Hp; [|done].
      apply self_reply_parent_sound in Hp. by destruct (Hnone t p). }
    clear Hnone. revert Hall. generalize (build_tweet_map raw_tweets) as m.
    intros m Hall. induction Hall as [|t l Ht Hl IH]; simpl; [done|].
    unfold record_self_reply at 2. by rewrite Ht. }
  by rewrite decide_True.
Qed.

(** ** The budget of thread requests *)

(** X1. The hydration loop asks for a prefix of the roots, in their order;
    each request that is answered is followed by one pacing sleep and each
    request that raises by none; and the number of answered requests stays
    within what was left of [max_thread_fetches]. *)
Theorem thread_requests_within_budget thread_api tweet_map rtp roots
    thread_fetches (thread_texts : gmap string (list string)) st o
    thread_texts' st' :
  hydrate thread_api tweet_map rtp roots thread_fetches thread_texts st
    = (o, thread_texts', st') →
  ∃ asked,
    asked `prefix_of` roots
    ∧ trace st' = trace st ++ hydration_events thread_api asked
    ∧ Z.of_nat (length (filter (λ r, answered thread_api r) asked))
      ≤ Z.max 0 (max_thread_fetches cfg - thread_fetches).
Proof. no_parsers.
  revert thread_fetches thread_texts st.
  induction roots as [|r roots IH]; intros tf texts0 st; simpl.
  { intros [= _ _ <-]. exists []. split_and!; [done|by rewrite app_nil_r|].
    simpl. lia. }
  destruct (decide (max_thread_fetches cfg ≤ tf)) as [Hfull|Hleft].
  { intros [= _ _ <-]. exists [].
    split_and!; [apply prefix_nil|by rewrite app_nil_r|simpl; lia]. }
  destruct (thread_api r) as [msg|thread] eqn:Hr.
  - destruct (_fallback_thread_from_batch _ _ _ _ _) as [[[e|] m] s0] eqn:Hf;
      apply fallback_frame in Hf as [Htr _]; simpl in Htr.
    + intros [= _ _ <-]. exists [r]. split_and!.
      * apply prefix_cons, prefix_nil.
      * rewrite Htr. unfold hydration_events, answered. simpl. by rewrite Hr.
      * rewrite filter_cons_False by (unfold answered; rewrite Hr; simpl; tauto).
        simpl. lia.
    + intros (asked & Hpre & Htr' & Hn)%IH. exists (r :: asked). split_and!.
      * by apply prefix_cons.
      * rewrite Htr', Htr, <- app_assoc. f_equal.
        unfold hydration_events at 2, answered. simpl. by rewrite Hr.
      * rewrite filter_cons_False by (unfold answered; rewrite Hr; simpl; tauto).
        lia.
  - assert (∀ asked n,
      Z.of_nat n ≤ Z.max 0 (max_thread_fetches cfg - (tf + 1)) →
      length (filter (λ r0, answered thread_api r0) asked) = n →
      Z.of_nat (length (filter (λ r0, answered thread_api r0) (r :: asked)))
      ≤ Z.max 0 (max_thread_fetches cfg - tf)) as Hcount.
    { intros asked n Hn Hlen.
      rewrite filter_cons_True by (unfold answered; rewrite Hr; simpl; tauto).
      simpl. lia. }
    assert (hydration_events thread_api [r]
            = [EvGetTweetById r; EvSleep (request_delay cfg)]) as Hone
      by (unfold hydration_events, answered; simpl; by rewrite Hr).
    assert (∀ asked, hydration_events thread_api (r :: asked)
              = [EvGetTweetById r; EvSleep (request_delay cfg)]
                ++ hydration_events thread_api asked) as Hcons.
    { intros asked. unfold hydration_events at 1, answered. simpl.
      by rewrite Hr. }
    destruct (remote_texts thread).
    + destruct (_fallback_thread_from_batch _ _ _ _ _) as [[[e|] m] s0] eqn:Hf;
        apply fallback_frame in Hf as [Htr _]; simpl in Htr.
      * intros [= _ _ <-]. exists [r]. split_and!.
        -- apply prefix_cons, prefix_nil.
        -- by rewrite Htr, Hone.
        -- apply (Hcount [] 0%nat); [lia|done].
      * intros (asked & Hpre & Htr' & Hn)%IH. exists (r :: asked). split_and!.
        -- by apply prefix_cons.
        -- by rewrite Htr', Htr, Hcons, <- !app_assoc.
        -- by eapply Hcount.
    + intros (asked & Hpre & Htr' & Hn)%IH. exists (r :: asked). split_and!.
      * by apply prefix_cons.
      * rewrite Htr', Hcons. simpl. by rewrite <- !app_assoc.
      * by eapply Hcount.
Qed.

(** X2. With [max_thread_fetches] zero or negative nothing is hydrated: the
    results come back as they are, without any thread request. *)
Theorem no_budget_no_merging thread_api user results raw_tweets st :
  max_thread_fetches cfg ≤ 0 →
  _merge_threads thread_api user results raw_tweets st = (inr results, st).
Proof. no_parsers.
  intros Hmax. unfold _merge_threads.
  destruct (find_self_replies _ _) as [self_replies rtp].
  destruct (decide _); [done|].
  assert (∀ roots, hydrate thread_api (build_tweet_map raw_tweets) rtp roots 0
                     ∅ st = (None, ∅, st)) as ->.
  { intros [|r roots]; simpl; [done|]. by rewrite decide_True. }
  by rewrite decide_True.
Qed.

(** ** Ids and urls *)

Lemma string_app_cons x (a b : string) : String x a +:+ b = String x (a +:+ b).
Proof. done. Qed.

Lemma string_app_nil_r (a : string) : a +:+ "" = a.
Proof. no_parameters.
  induction a as [|x a IH]; [done|]. by rewrite string_app_cons, IH.
Qed.

Lemma string_app_assoc (a b c : string) : (a +:+ b) +:+ c = a +:+ (b +:+ c).
Proof. no_parameters.
  induction a as [|x a IH]; [done|]. by rewrite !string_app_cons, IH.
Qed.

Lemma last_segment_from_plain acc s :
  Forall (λ c, c ≠ "/"%char) (list_ascii_of_string s) →
  last_segment_from acc s = acc +:+ s.
Proof. no_parameters.
  revert acc. induction s as [|c s IH]; intros acc; simpl.
  { intros _. by rewrite string_app_nil_r. }
  intros [Hc Hs]%Forall_cons.
  destruct (Ascii.eqb_spec c "/"); [done|].
  by rewrite (IH _ Hs), string_app_assoc.
Qed.

Lemma last_segment_from_slash acc s tweet_id :
  Forall (λ c, c ≠ "/"%char) (list_ascii_of_string tweet_id) →
  last_segment_from acc (s +:+ String "/" tweet_id) = tweet_id.
Proof. no_parameters.
  intros Hid. revert acc. induction s as [|c s IH]; intros acc.
  - change ("" +:+ String "/" tweet_id) with (String "/" tweet_id). simpl.
    by rewrite last_segment_from_plain.
  - rewrite string_app_cons. simpl. by destruct (Ascii.eqb c "/").
Qed.

(** X8. The id of a tweet is read back from the url built for it: for an
    id without a slash, [url.split('/')[-1]] of the status url is the id,
    whatever the account name, and so it is for the url of the post that
    the scan builds for the tweet. *)
Theorem url_id_round_trip user t :
  Forall (λ c, c ≠ "/"%char) (list_ascii_of_string (tw_id t)) →
  last_segment (status_url user (tw_id t)) = tw_id t
  ∧ last_segment (url (tweet_data_of user t)) = tw_id t.
Proof. no_parameters.
  intros Hid.
  assert (last_segment (status_url user (tw_id t)) = tw_id t) as H; [|done].
  unfold last_segment, status_url.
  replace ("https://twitter.com/" +:+ user +:+ "/status/" +:+ tw_id t)
    with (("https://twitter.com/" +:+ user +:+ "/status")
          +:+ String "/" (tw_id t)).
  - by apply last_segment_from_slash.
  - rewrite !string_app_assoc. done.
Qed.

(** ** Roots *)

(** X9. Resolving is idempotent: the id at which the walk from any id
    stops resolves to itself, also when the edges hold a cycle. *)
Theorem resolve_id_idempotent rtp x :
  resolve_id rtp (resolve_id rtp x) = resolve_id rtp x.
Proof. no_parameters.
  unfold resolve_id at 2 3.
  destruct (find_root_walk rtp ∅ x) as (e & Hw & ->).
  destruct (OD.get (we_root e) rtp) as [next|] eqn:Hr;
    [|by apply resolve_id_no_edge].
  destruct (walk_root_key _ _ _ _ _ _ Hw Hr) as [Hin|(f' & V' & e' & Hw' & He')];
    [set_solver|].
  destruct (walk_shrink_visited f' rtp ({[we_root e]} ∪ V') {[we_root e]}
              next e') as (e'' & Hw'' & He''); [set_solver|done|set_solver|].
  unfold resolve_id. rewrite <- He' at 2. rewrite <- He''.
  apply (find_root_eq (S f') _ _ _
    (WalkEnd (we_root e'') (we_visited e'') (S (we_lookups e'')))).
  rewrite walk_unfold, Hr. rewrite decide_False by set_solver.
  by rewrite union_empty_r_L, Hw''.
Qed.

(** ** What hydration records *)

Lemma set_order_NoDup s : NoDup (set_order s).
Proof using Type*. no_parsers.
  rewrite set_order_perm. apply NoDup_elements.
Qed.

Lemma fallback_records_nonempty root_id tweet_map rtp
    (thread_texts : gmap string (list string)) st o thread_texts' st' :
  _fallback_thread_from_batch root_id tweet_map rtp thread_texts st
    = (o, thread_texts', st') →
  (thread_texts' = thread_texts ∧ st' = st)
  ∨ ∃ texts, texts ≠ [] ∧ thread_texts' = <[root_id := texts]> thread_texts
             ∧ st' = with_stats add_thread_detected st.
Proof. no_parameters.
  unfold _fallback_thread_from_batch.
  destruct (1 <? length _)%nat; [|intros [= _ <- <-]; by left].
  destruct (py_sort _ _) as [sorted|]; [|intros [= _ <- <-]; by left].
  destruct (map _ sorted) as [|x l] eqn:Hm; intros [= _ <- <-]; [by left|].
  right. by exists (x :: l).
Qed.

Lemma hydrate_records thread_api tweet_map rtp roots thread_fetches
    (thread_texts : gmap string (list string)) st o thread_texts' st' :
  hydrate thread_api tweet_map rtp roots thread_fetches thread_texts st
    = (o, thread_texts', st') →
  NoDup roots →
  (∀ r, r ∈ roots → thread_texts !! r = None) →
  (∀ r texts, thread_texts !! r = Some texts → texts ≠ []) →
  (∀ r texts, thread_texts' !! r = Some texts → texts ≠ [])
  ∧ (threads_detected (stats st') + size thread_texts
     = threads_detected (stats st) + size thread_texts')%nat.
Proof. no_parsers.
  revert thread_fetches thread_texts st.
  induction roots as [|r roots IH]; intros tf texts0 st; simpl.
  { by intros [= _ <- <-] _ _ Hne. }
  destruct (decide _); [by intros [= _ <- <-] _ _ Hne|].
  intros Hrun [Hr Hnd]%NoDup_cons Hfresh Hne.
  assert (texts0 !! r = None) as Hr0 by (apply Hfresh; left).
  assert (∀ texts st1 tf',
    texts ≠ [] →
    hydrate thread_api tweet_map rtp roots tf' (<[r:=texts]> texts0)
      (with_stats add_thread_detected st1) = (o, thread_texts', st') →
    (∀ r0 texts1, thread_texts' !! r0 = Some texts1 → texts1 ≠ [])
    ∧ (threads_detected (stats st') + size texts0
       = threads_detected (stats st1) + size thread_texts')%nat) as Hrec.
  { intros texts st1 tf' Htexts Hh.
    destruct (IH _ _ _ Hh Hnd) as [H1 H2].
    - intros r0 Hr0'. rewrite lookup_insert_ne; [apply Hfresh; by right|].
      intros <-. done.
    - intros r0 t0. rewrite lookup_insert. case_decide as Heq.
      + by intros [= <-].
      + apply Hne.
    - split; [done|]. rewrite map_size_insert_None in H2 by done.
      simpl in H2. lia. }
  assert (∀ st1 tf',
    hydrate thread_api tweet_map rtp roots tf' texts0 st1
      = (o, thread_texts', st') →
    (∀ r0 texts1, thread_texts' !! r0 = Some texts1 → texts1 ≠ [])
    ∧ (threads_detected (stats st') + size texts0
       = threads_detected (stats st1) + size thread_texts')%nat) as Hskip.
  { intros st1 tf' Hh. apply (IH _ _ _ Hh Hnd); [|done].
    intros r0 Hr0'. apply Hfresh. by right. }
  destruct (thread_api r) as [msg|thread].
  - destruct (_fallback_thread_from_batch _ _ _ _ _) as [[o1 m] s0] eqn:Hf.
    apply fallback_records_nonempty in Hf
      as [[-> ->]|(texts & Htexts & -> & ->)].
    + destruct o1; [injection Hrun as _ <- <-; by split|].
      by apply Hskip in Hrun.
    + destruct o1.
      * injection Hrun as _ <- <-. split.
        -- intros r0 t0. rewrite lookup_insert. case_decide.
           ++ by intros [= <-].
           ++ apply Hne.
        -- rewrite map_size_insert_None by done. simpl. lia.
      * by apply Hrec in Hrun.
  - destruct (remote_texts thread) as [|x l] eqn:Hremote.
    + destruct (_fallback_thread_from_batch _ _ _ _ _) as [[o1 m] s0] eqn:Hf.
      apply fallback_records_nonempty in Hf
        as [[-> ->]|(texts & Htexts & -> & ->)].
      * destruct o1; [injection Hrun as _ <- <-; by split|].
        by apply Hskip in Hrun.
      * destruct o1.
        -- injection Hrun as _ <- <-. split.
           ++ intros r0 t0. rewrite lookup_insert. case_decide.
              ** by intros [= <-].
              ** apply Hne.
           ++ rewrite map_size_insert_None by done. simpl. lia.
        -- by apply Hrec in Hrun.
    + by apply Hrec in Hrun.
Qed.

(** X12. Whatever the outcome of the hydration of a batch, every root it
    recorded has at least one text, and [threads_detected] has grown by
    exactly the number of recorded roots. *)
Theorem threads_detected_counts_records thread_api tweet_map rtp st o
    (thread_texts : gmap string (list string)) st' :
  hydrate thread_api tweet_map rtp (set_order (compute_root_ids rtp)) 0 ∅ st
    = (o, thread_texts, st') →
  (∀ r texts, thread_texts !! r = Some texts → (0 < length texts)%nat)
  ∧ threads_detected (stats st')
    = (threads_detected (stats st) + size thread_texts)%nat.
Proof using Type*. no_parsers.
  intros Hh.
  destruct (hydrate_records _ _ _ _ _ _ _ _ _ _ Hh) as [Hne Hcount].
  - apply set_order_NoDup.
  - intros r _. apply lookup_empty.
  - intros r texts. by rewrite lookup_empty.
  - split.
    + intros r texts Hr. specialize (Hne r texts Hr).
      destruct texts; [done|simpl; lia].
    + rewrite map_size_empty in Hcount. lia.
Qed.

Lemma fallback_other_keys root_id tweet_map rtp
    (thread_texts : gmap string (list string)) st o thread_texts' st' k :
  _fallback_thread_from_batch root_id tweet_map rtp thread_texts st
    = (o, thread_texts', st') →
  k ≠ root_id → thread_texts' !! k = thread_texts !! k.
Proof. no_parameters.
  intros [[-> _]|(texts & _ & -> & _)]%fallback_records_nonempty Hk; [done|].
  by rewrite lookup_insert_ne.
Qed.

Lemma hydrate_other_keys thread_api tweet_map rtp roots thread_fetches
    (thread_texts : gmap string (list string)) st o thread_texts' st' k :
  hydrate thread_api tweet_map rtp roots thread_fetches thread_texts st
    = (o, thread_texts', st') →
  k ∉ roots → thread_texts' !! k = thread_texts !! k.
Proof. no_parsers.
  revert thread_fetches thread_texts st.
  induction roots as [|r roots IH]; intros tf texts0 st; simpl.
  { by intros [= _ <- _]. }
  destruct (decide _); [by intros [= _ <- _]|].
  intros Hrun [Hkr Hk]%not_elem_of_cons.
  destruct (thread_api r) as [msg|thread].
  - destruct (_fallback_thread_from_batch _ _ _ _ _) as [[o1 m] s0] eqn:Hf.
    apply (fallback_other_keys _ _ _ _ _ _ _ _ k) in Hf; [|done].
    destruct o1; [by injection Hrun as _ <- _|].
    by rewrite (IH _ _ _ Hrun Hk).
  - destruct (remote_texts thread).
    + destruct (_fallback_thread_from_batch _ _ _ _ _) as [[o1 m] s0] eqn:Hf.
      apply (fallback_other_keys _ _ _ _ _ _ _ _ k) in Hf; [|done].
      destruct o1; [by injection Hrun as _ <- _|].
      by rewrite (IH _ _ _ Hrun Hk).
    + rewrite (IH _ _ _ Hrun Hk). by rewrite lookup_insert_ne.
Qed.

(** X13. The remote thread wins over the batch: when the budget covers
    every root and hydration ends without an exception, a root whose
    remote request returned a thread with at least one text is recorded
    with exactly the texts of that thread, in its order, whatever the batch
    holds for that root. *)
Theorem remote_thread_wins thread_api tweet_map rtp roots thread_fetches
    (thread_texts : gmap string (list string)) st thread_texts' st'
    root_id thread :
  hydrate thread_api tweet_map rtp roots thread_fetches thread_texts st
    = (None, thread_texts', st') →
  NoDup roots →
  Z.of_nat (length roots) ≤ max_thread_fetches cfg - thread_fetches →
  root_id ∈ roots →
  thread_api root_id = TR_tweet thread →
  remote_texts thread ≠ [] →
  thread_texts' !! root_id = Some (remote_texts thread).
Proof. no_parsers.
  revert thread_fetches thread_texts st.
  induction roots as [|r roots IH]; intros tf texts0 st; simpl;
    [by intros _ _ _ ?%elem_of_nil|].
  destruct (decide _) as [Hfull|Hleft]; [intros _ _ Hlen; lia|].
  intros Hrun [Hr Hnd]%NoDup_cons Hlen Hin Hapi Htexts.
  destruct (decide (root_id = r)) as [->|Hne].
  - rewrite Hapi in Hrun.
    destruct (remote_texts thread) as [|x l] eqn:Hremote; [done|].
    rewrite (hydrate_other_keys _ _ _ _ _ _ _ _ _ _ r Hrun Hr).
    by rewrite lookup_insert_eq.
  - apply elem_of_cons in Hin as [?|Hin]; [done|].
    destruct (thread_api r) as [msg|thread0].
    + destruct (_fallback_thread_from_batch _ _ _ _ _) as [[[e|] m] s0];
        [done|].
      apply (IH _ _ _ Hrun); [done|lia|done..].
    + destruct (remote_texts thread0).
      * destruct (_fallback_thread_from_batch _ _ _ _ _) as [[[e|] m] s0];
          [done|].
        apply (IH _ _ _ Hrun); [done|lia|done..].
      * apply (IH _ _ _ Hrun); [done|lia|done..].
Qed.

(** ** What a call returns *)

Lemma rebuild_length user rtp (thread_texts : gmap string (list string))
    merged_ids used_roots results :
  (length (rebuild user rtp thread_texts merged_ids used_roots results)
   ≤ length results)%nat.
Proof. no_parameters.
  revert used_roots. induction results as [|p l IH]; intros used; simpl; [done|].
  destruct (decide _);
    [destruct (thread_texts !! _); [destruct (decide _)|]|]; simpl;
    match goal with
    | |- context [rebuild _ _ _ _ ?u l] => specialize (IH u)
    end; lia.
Qed.

Lemma rebuild_of_account user rtp (thread_texts : gmap string (list string))
    merged_ids used_roots results :
  Forall (λ p, username p = user ∧ ∃ tweet_id, url p = status_url user tweet_id)
    results →
  Forall (λ p, username p = user ∧ ∃ tweet_id, url p = status_url user tweet_id)
    (rebuild user rtp thread_texts merged_ids used_roots results).
Proof. no_parameters.
  revert used_roots. induction results as [|p l IH]; intros used; simpl; [done|].
  intros [[Hp Hu] Hl]%Forall_cons.
  destruct (decide _).
  - destruct (thread_texts !! _); [destruct (decide _)|]; try by apply IH.
    apply Forall_cons. split; [|by apply IH]. simpl. eauto.
  - apply Forall_cons. split; [done|by apply IH].
Qed.

Lemma merge_threads_result thread_api user results raw_tweets st out st' :
  _merge_threads thread_api user results raw_tweets st = (inr out, st') →
  (length out ≤ length results)%nat
  ∧ (Forall (λ p, username p = user
                  ∧ ∃ tweet_id, url p = status_url user tweet_id) results →
     Forall (λ p, username p = user
                  ∧ ∃ tweet_id, url p = status_url user tweet_id) out).
Proof. no_parsers.
  unfold _merge_threads.
  destruct (find_self_replies _ _) as [self_replies rtp].
  destruct (decide _); [by intros [= <- _]|].
  destruct (hydrate _ _ _ _ _ _ _) as [[[e|] m] s0]; [done|].
  destruct (decide _); [by intros [= <- _]|].
  intros [= <- _]. split; [apply rebuild_length|apply rebuild_of_account].
Qed.

Lemma process_tweets_result user cutoff tweets thread_api st results st' :
  process_tweets user cutoff tweets thread_api st = (inr results, st') →
  (length results ≤ length tweets)%nat
  ∧ Forall (λ p, username p = user
                 ∧ ∃ tweet_id, url p = status_url user tweet_id) results.
Proof. no_parsers.
  unfold process_tweets. rewrite scan_tweets_spec. simpl.
  set (scanned := tweet_data_of user <$> filter (kept cutoff) tweets).
  assert (length scanned ≤ length tweets)%nat as Hlen
    by (unfold scanned; rewrite length_fmap; apply length_filter).
  assert (Forall (λ p, username p = user
                       ∧ ∃ tweet_id, url p = status_url user tweet_id) scanned)
    as Hacc.
  { unfold scanned. apply Forall_fmap, Forall_forall. intros t _. simpl. eauto. }
  destruct (_ && _).
  - destruct (_merge_threads _ _ _ _ _) as [[e|out] s0] eqn:Hm; [done|].
    intros [= <- _]. apply merge_threads_result in Hm as [Hl Ha].
    split; [lia|auto].
  - by intros [= <- _].
Qed.

(** The list a call returns is empty or the outcome of processing the
    answer of one of its attempts. *)
Lemma attempts_result_source remote user count cutoff remaining attempt st
    results st' :
  attempts remote user count cutoff remaining attempt st = (results, st') →
  results = []
  ∨ ∃ k tweets thread_api st0 st1,
      remote k = FR_tweets tweets thread_api
      ∧ process_tweets user cutoff tweets thread_api st0 = (inr results, st1).
Proof. no_parsers.
  revert attempt st. induction remaining as [|remaining IH]; intros attempt st.
  { intros [= <- _]. by left. }
  rewrite attempts_unfold.
  destruct (run_attempt _ _ _ _ _ _) as [[e|out] s0] eqn:Hrun.
  - destruct (_ && _); [apply IH|]. intros [= <- _]. by left.
  - intros [= <- _]. right. unfold run_attempt in Hrun.
    destruct (remote attempt) as [msg|tweets thread_api] eqn:Hr; [done|].
    eauto 10.
Qed.

(** X4. A per-account fetch returns the empty list or at most as many
    posts as one of its timeline requests returned tweets, and every post
    it returns carries the requested account name and a status url under
    that account. *)
Theorem result_within_batch now remote user count st results st' :
  get_user_tweets now remote user count st = (results, st') →
  (results = []
   ∨ ∃ k tweets thread_api,
       remote k = FR_tweets tweets thread_api
       ∧ (length results ≤ length tweets)%nat)
  ∧ ∀ p, p ∈ results →
      username p = user ∧ ∃ tweet_id, url p = status_url user tweet_id.
Proof. no_parsers.
  unfold get_user_tweets.
  intros [->|(k & tweets & api & st0 & st1 & Hk & Hp)]%attempts_result_source.
  - split; [by left|]. by intros p ?%elem_of_nil.
  - apply process_tweets_result in Hp as [Hlen Hacc]. split.
    + right. eauto.
    + by apply Forall_forall.
Qed.

(** ** The statistics of a call *)

Lemma attempts_accounting remote user count cutoff remaining attempt st
    results st' :
  attempts remote user count cutoff remaining attempt st = (results, st') →
  total_accounts (stats st') = total_accounts (stats st)
  ∧ total_tweets (stats st') = (total_tweets (stats st) + length results)%nat
  ∧ (Z.of_nat remaining + Z.of_nat attempt = max_retries cfg + 1 →
     (0 < remaining)%nat →
     (successful_accounts (stats st') + failed_accounts (stats st')
      = successful_accounts (stats st) + failed_accounts (stats st) + 1)%nat).
Proof. no_parsers.
  revert attempt st. induction remaining as [|remaining IH]; intros attempt st.
  { intros [= <- <-]. simpl. split_and!; [done|lia|lia]. }
  rewrite attempts_unfold.
  destruct (run_attempt _ _ _ _ _ _) as [[e|out] s0] eqn:Hrun;
    apply run_attempt_frame in Hrun as (H1 & H2 & H3 & H4 & H5 & _).
  - destruct (is_rate_limit e && retry_on_rate_limit cfg) eqn:Hretry; simpl.
    + destruct (Z.ltb_spec (Z.of_nat attempt) (max_retries cfg)) as [Hlt|Hge].
      * intros (G1 & G2 & G3)%IH. simpl in *.
        split_and!; [congruence|lia|]. intros Hinv _.
        rewrite G3 by lia. lia.
      * intros [= <- <-]. simpl. split_and!; [done|lia|lia].
    + intros [= <- <-]. simpl. split_and!; [done|lia|lia].
  - intros [= <- <-]. split_and!; [done|lia|lia].
Qed.

(** X5. One per-account fetch adds the length of the list it returns to
    [total_tweets], leaves [total_accounts] alone and, when [max_retries]
    is not negative, counts exactly once, as a success or as a failure;
    with a negative [max_retries] it returns the empty list without a
    request and without touching anything. *)
Theorem call_accounting now remote user count st results st' :
  get_user_tweets now remote user count st = (results, st') →
  total_accounts (stats st') = total_accounts (stats st)
  ∧ total_tweets (stats st') = (total_tweets (stats st) + length results)%nat
  ∧ (0 ≤ max_retries cfg →
     (successful_accounts (stats st') + failed_accounts (stats st')
      = successful_accounts (stats st) + failed_accounts (stats st) + 1)%nat)
  ∧ (max_retries cfg < 0 → results = [] ∧ st' = st).
Proof. no_parsers.
  unfold get_user_tweets. intros Hrun.
  destruct (attempts_accounting _ _ _ _ _ _ _ _ _ Hrun) as (H1 & H2 & H3).
  split_and!; [done|done| |].
  - intros Hmax. apply H3; lia.
  - intros Hneg. replace (Z.to_nat (max_retries cfg + 1)) with 0%nat in Hrun by lia.
    by injection Hrun as <- <-.
Qed.

(** ** The trace of a call *)

Lemma attempts_trace remote user count cutoff remaining attempt st results st' :
  attempts remote user count cutoff remaining attempt st = (results, st') →
  Z.of_nat remaining + Z.of_nat attempt = max_retries cfg + 1 →
  (0 < remaining)%nat →
  ∃ rounds last,
    trace st' = trace st ++ retry_rounds user count attempt rounds
                ++ EvGetTweets user count :: last
    ∧ Z.of_nat attempt + Z.of_nat (length rounds) ≤ max_retries cfg
    ∧ Forall (Forall is_hydration_event) rounds
    ∧ Forall is_hydration_event last.
Proof. no_parsers.
  revert attempt st. induction remaining as [|remaining IH]; intros attempt st;
    [lia|].
  rewrite attempts_unfold.
  destruct (run_attempt _ _ _ _ _ _) as [[e|out] s0] eqn:Hrun;
    apply run_attempt_frame in Hrun as (_ & _ & _ & _ & _ & evs & Htr & Hevs).
  - destruct (is_rate_limit e && retry_on_rate_limit cfg) eqn:Hretry; simpl.
    + destruct (Z.ltb_spec (Z.of_nat attempt) (max_retries cfg)) as [Hlt|Hge].
      * intros Hrun Hinv _.
        destruct (IH _ _ Hrun) as (rounds & last & Htr' & Hlen & Hr & Hl);
          [lia|lia|].
        exists (evs :: rounds), last. split_and!; [|simpl; lia|by constructor|done].
        rewrite Htr'. simpl. rewrite Htr. by rewrite <- !app_assoc.
      * intros [= <- <-] Hinv _. exists [], evs. simpl.
        split_and!; [done|lia|done|done].
    + intros [= <- <-] Hinv _. exists [], evs. simpl.
      split_and!; [done|lia|done|done].
  - intros [= <- <-] Hinv _. exists [], evs. simpl.
    split_and!; [done|lia|done|done].
Qed.

Lemma hydration_no_timeline evs :
  Forall is_hydration_event evs →
  filter (λ ev, is_timeline_request ev) evs = [].
Proof. no_parsers.
  intros Hevs. induction Hevs as [|ev evs Hev _ IH]; [done|].
  rewrite filter_cons_False, IH; [done|].
  destruct Hev as [[? ->]| ->]; simpl; tauto.
Qed.

Lemma retry_rounds_requests user count k rounds :
  Forall (Forall is_hydration_event) rounds →
  length (filter (λ ev, is_timeline_request ev)
            (retry_rounds user count k rounds)) = length rounds.
Proof. no_parsers.
  intros Hr. revert k. induction Hr as [|evs rounds Hevs _ IH]; intros k; [done|].
  cbn [retry_rounds]. rewrite filter_cons_True by (simpl; tauto).
  rewrite filter_app, (hydration_no_timeline _ Hevs), app_nil_l.
  rewrite filter_cons_False by (simpl; tauto).
  cbn [length]. by rewrite IH.
Qed.


(** X7. The trace of one per-account fetch (with [max_retries] not
    negative) is a number of failed rounds, at most [max_retries], each
    made of the timeline request, the thread requests and pacing sleeps of
    its processing and the backoff sleep of 30 times its number, followed
    by one last timeline request and the events of its processing.  So a
    call makes at most [max_retries + 1] timeline requests. *)
Theorem retry_trace_shape now remote user count st results st' :
  get_user_tweets now remote user count st = (results, st') →
  0 ≤ max_retries cfg →
  ∃ rounds last,
    trace st' = trace st ++ retry_rounds user count 0 rounds
                ++ EvGetTweets user count :: last
    ∧ Z.of_nat (length rounds) ≤ max_retries cfg
    ∧ Forall (Forall is_hydration_event) rounds
    ∧ Forall is_hydration_event last
    ∧ Z.of_nat (length (filter (λ ev, is_timeline_request ev)
                          (retry_rounds user count 0 rounds
                           ++ EvGetTweets user count :: last)))
      ≤ max_retries cfg + 1.
Proof. no_parsers.
  unfold get_user_tweets. intros Hrun Hmax.
  destruct (attempts_trace _ _ _ _ _ _ _ _ _ Hrun)
    as (rounds & last & Htr & Hlen & Hr & Hl); [lia|lia|].
  exists rounds, last. split_and!; [done|lia|done|done|].
  rewrite filter_app, length_app, retry_rounds_requests by done.
  rewrite filter_cons_True by (simpl; tauto).
  cbn [length]. rewrite (hydration_no_timeline _ Hl). cbn [length]. lia.
Qed.

Lemma attempts_exhausted remote user count cutoff n attempt st :
  retry_on_rate_limit cfg = true →
  Z.of_nat (S n) + Z.of_nat attempt = max_retries cfg + 1 →
  (∀ i, (attempt ≤ i)%nat → Z.of_nat i ≤ max_retries cfg →
        ∃ msg, remote i = FR_raise msg ∧ is_rate_limit msg = true) →
  ∃ msg,
    remote (attempt + n)%nat = FR_raise msg
    ∧ attempts remote user count cutoff (S n) attempt st
      = ([], {| stats := add_failure (failure_entry user msg) (stats st);
                trace := trace st
                         ++ retry_rounds user count attempt (replicate n [])
                         ++ [EvGetTweets user count] |}).
Proof. no_parsers.
  intros Hretry. revert attempt st.
  induction n as [|n IH]; intros attempt st Hinv Hall;
    rewrite attempts_unfold; unfold run_attempt;
    destruct (Hall attempt) as (msg & Hmsg & Hrate); try lia;
    rewrite Hmsg, Hrate, Hretry; cbn [andb].
  - rewrite (proj2 (Z.ltb_ge _ _)) by lia.
    exists msg. rewrite Nat.add_0_r. split; [done|].
    unfold with_stats, emit. simpl. done.
  - rewrite (proj2 (Z.ltb_lt _ _)) by lia.
    destruct (IH (S attempt)
                (emit [EvSleep ((Z.of_nat attempt + 1) * 30)]
                   (emit [EvGetTweets user count] st)))
      as (msg' & Hmsg' & ->); [lia|intros i Hi; apply Hall; lia|].
    exists msg'. replace (attempt + S n)%nat with (S attempt + n)%nat by lia.
    split; [done|]. cbn [replicate retry_rounds]. unfold emit. simpl.
    f_equal. f_equal. by rewrite <- !app_assoc.
Qed.

(** X15. When every attempt meets a rate-limit error (retrying on,
    [max_retries] not negative), the call makes [max_retries + 1] timeline
    requests with the backoff sleeps 30, 60, ..., [30 * max_retries]
    between them and nothing else, returns the empty list and records one
    failure, with the text of the last error. *)
Theorem retries_exhausted_trace now remote user count st :
  retry_on_rate_limit cfg = true →
  0 ≤ max_retries cfg →
  (∀ i, Z.of_nat i ≤ max_retries cfg →
        ∃ msg, remote i = FR_raise msg ∧ is_rate_limit msg = true) →
  ∃ msg,
    remote (Z.to_nat (max_retries cfg)) = FR_raise msg
    ∧ get_user_tweets now remote user count st
      = ([], {| stats := add_failure ("@" +:+ user +:+ ": " +:+ msg) (stats st);
                trace := trace st
                         ++ retry_rounds user count 0
                              (replicate (Z.to_nat (max_retries cfg)) [])
                         ++ [EvGetTweets user count] |}).
Proof. no_parsers.
  intros Hretry Hmax Hall. unfold get_user_tweets.
  replace (Z.to_nat (max_retries cfg + 1))
    with (S (Z.to_nat (max_retries cfg))) by lia.
  destruct (attempts_exhausted remote user count (cutoff_date now)
              (Z.to_nat (max_retries cfg)) 0 st Hretry)
    as (msg & Hmsg & Hrun); [lia|intros i _; apply Hall|].
  exists msg. by split.
Qed.

(** ** Telling a rate-limit error *)

Lemma prefix_spec (needle hay : string) :
  String.prefix needle hay = true ↔ ∃ post, hay = needle +:+ post.
Proof. no_parameters.
  revert hay. induction needle as [|c needle IH]; intros hay.
  { split; [intros _; by exists hay|intros _; by destruct hay]. }
  destruct hay as [|c' hay].
  { split; [done|]. intros [post Hpost]. by rewrite string_app_cons in Hpost. }
  change (String.prefix (String c needle) (String c' hay))
    with (if Ascii.ascii_dec c c' then String.prefix needle hay else false).
  destruct (Ascii.ascii_dec c c') as [->|Hne].
  - rewrite IH. split; intros [post Hpost]; exists post.
    + by rewrite string_app_cons, Hpost.
    + rewrite string_app_cons in Hpost. by injection Hpost.
  - split; [done|]. intros [post Hpost]. rewrite string_app_cons in Hpost.
    by injection Hpost.
Qed.

Lemma str_contains_spec (needle hay : string) :
  str_contains needle hay = true ↔
  ∃ pre post, hay = pre +:+ needle +:+ post.
Proof. no_parameters.
  induction hay as [|c hay IH]; cbn [str_contains].
  - rewrite orb_false_r, prefix_spec. split.
    + intros [post ->]. by exists "", post.
    + intros ([|x pre] & post & Heq); [by exists post|done].
  - rewrite orb_true_iff, prefix_spec, IH. split.
    + intros [[post ->]|(pre & post & ->)].
      * by exists "", post.
      * by exists (String c pre), post.
    + intros ([|x pre] & post & Heq).
      * left. by exists post.
      * right. rewrite string_app_cons in Heq. injection Heq as -> ->.
        by exists pre, post.
Qed.

(** X14. An error counts as a rate-limit error exactly when its text
    contains [429] or [Rate limit] somewhere, in this spelling. *)
Theorem is_rate_limit_spec error_msg :
  is_rate_limit error_msg = true ↔
  ∃ pre post, error_msg = pre +:+ "429" +:+ post
              ∨ error_msg = pre +:+ "Rate limit" +:+ post.
Proof. no_parameters.
  unfold is_rate_limit. rewrite orb_true_iff, !str_contains_spec.
  naive_solver.
Qed.

(** ** The statistics of a batch *)

Lemma flatten_slots_insert (slots : list (option (list Post))) j tweets :
  slots !! j = Some None →
  length (flatten_slots (<[j:=Some tweets]> slots))
  = (length (flatten_slots slots) + length tweets)%nat.
Proof. no_parameters.
  unfold flatten_slots. revert j.
  induction slots as [|slot slots IH]; intros j; [done|].
  destruct j as [|j]; simpl.
  - intros [= ->]. simpl. rewrite !length_app. simpl. lia.
  - intros Hj. rewrite !length_app. specialize (IH j Hj). simpl in IH. lia.
Qed.

Lemma flatten_slots_empty n : flatten_slots (replicate n None) = [].
Proof. no_parameters.
  unfold flatten_slots. induction n as [|n IHn]; [done|]. simpl. exact IHn.
Qed.

Lemma run_tasks_accounting now remote usernames count completion slots st :
  0 ≤ max_retries cfg →
  NoDup completion →
  (∀ i, i ∈ completion → is_Some (usernames !! i) ∧ slots !! i = Some None) →
  let out := foldl (run_task now remote usernames count) (slots, st)
               completion in
  total_accounts (stats out.2) = total_accounts (stats st)
  ∧ (total_tweets (stats out.2) + length (flatten_slots slots)
     = total_tweets (stats st) + length (flatten_slots out.1))%nat
  ∧ (successful_accounts (stats out.2) + failed_accounts (stats out.2)
     = successful_accounts (stats st) + failed_accounts (stats st)
       + length completion)%nat.
Proof. no_parsers.
  intros Hmax. revert slots st.
  induction completion as [|j rest IH]; intros slots st Hnd Hall; cbn zeta.
  { simpl. split_and!; [done|lia|lia]. }
  apply NoDup_cons in Hnd as [Hj Hnd].
  cbn [foldl]. rewrite run_task_step.
  destruct (Hall j) as [[u Hu] Hslot]; [left|]. rewrite Hu.
  destruct (get_user_tweets (now j) (remote j) u count st) as [tweets st1]
    eqn:Hrun.
  unfold get_user_tweets in Hrun.
  apply attempts_accounting in Hrun as (H1 & H2 & H3).
  specialize (H3 ltac:(lia) ltac:(lia)).
  cbn [fst snd].
  destruct (IH (<[j:=Some tweets]> slots)
              (emit [EvSleep (request_delay cfg)] st1) Hnd)
    as (G1 & G2 & G3).
  { intros i Hi. destruct (Hall i) as [Hui Hsi]; [by right|].
    split; [done|]. rewrite list_lookup_insert_ne; [done|]. by intros ->. }
  cbn zeta in G1, G2, G3. simpl in G1, G2, G3.
  rewrite flatten_slots_insert in G2 by done.
  split_and!; [congruence|lia|simpl; lia].
Qed.

(** X6. After a batch (every task completed once, in any order, with
    [max_retries] not negative) [total_accounts] is the number of submitted
    accounts, [total_tweets] has grown by the length of the returned list,
    and every account was counted once, as a success or as a failure. *)
Theorem batch_accounting now remote usernames count completion st all_tweets
    st' :
  completion ≡ₚ seq 0 (length usernames) →
  0 ≤ max_retries cfg →
  fetch_multiple_accounts now remote usernames count completion st
    = (all_tweets, st') →
  total_accounts (stats st') = length usernames
  ∧ total_tweets (stats st')
    = (total_tweets (stats st) + length all_tweets)%nat
  ∧ (successful_accounts (stats st') + failed_accounts (stats st')
     = successful_accounts (stats st) + failed_accounts (stats st)
       + length usernames)%nat.
Proof. no_parsers.
  intros Hperm Hmax. unfold fetch_multiple_accounts.
  pose proof (run_tasks_accounting now remote usernames count completion
    (replicate (length usernames) None)
    (with_stats (set_total_accounts (length usernames)) st) Hmax) as Hacc.
  destruct (foldl _ _ completion) as [slots st1]. intros [= <- <-].
  destruct Hacc as (H1 & H2 & H3).
  - rewrite Hperm. apply NoDup_seq.
  - intros i Hi. rewrite Hperm, elem_of_seq in Hi. split.
    + apply lookup_lt_is_Some. lia.
    + apply lookup_replicate_2. lia.
  - simpl in *.
    rewrite flatten_slots_empty in H2. simpl in H2.
    rewrite (Permutation_length Hperm), length_seq in H3.
    split_and!; [done|lia|lia].
Qed.

(** ** The requests of a batch *)




(** ** Posts outside the hydrated chains *)

Lemma merge_by_chain_plain user rtp (thread_texts : gmap string (list string))
    earlier rest :
  Forall (λ p, is_thread p = None) rest →
  filter (λ o, is_thread o = None)
         (merge_by_chain user rtp thread_texts earlier rest)
  = filter (λ p, thread_texts !! chain_root_of rtp p = None) rest.
Proof. no_parameters.
  intros Hplain. revert earlier.
  induction Hplain as [|p rest Hp _ IH]; intros earlier; [done|].
  cbn [merge_by_chain]. rewrite filter_app, IH.
  destruct (thread_texts !! chain_root_of rtp p) as [texts|] eqn:Hroot.
  - rewrite (filter_cons_False _ p) by congruence.
    destruct (decide _); [done|].
    by rewrite filter_cons_False by done.
  - rewrite (filter_cons_True _ p rest) by done.
    by rewrite filter_cons_True by done.
Qed.

(** X21. Merging passes on the posts outside the hydrated chains and only
    them: when hydration ends without an exception, the posts of the output
    that are no merged entries are exactly the posts of the results whose
    chain has no recorded texts, each as it was and in the same order. *)
Theorem plain_posts_kept thread_api user results raw_tweets st
    (thread_texts : gmap string (list string)) st' :
  let tweet_map := build_tweet_map raw_tweets in
  let rtp := (find_self_replies tweet_map raw_tweets).2 in
  hydrate thread_api tweet_map rtp (set_order (compute_root_ids rtp)) 0 ∅ st
    = (None, thread_texts, st') →
  Forall (λ p, is_thread p = None) results →
  ∃ out,
    _merge_threads thread_api user results raw_tweets st = (inr out, st')
    ∧ filter (λ o, is_thread o = None) out
      = filter (λ p, thread_texts !! chain_root_of rtp p = None) results.
Proof using Type*. no_parsers.
  intros tweet_map rtp Hhydrate Hplain.
  exists (merge_by_chain user rtp thread_texts [] results). split.
  - by apply merge_threads_eq.
  - by apply merge_by_chain_plain.
Qed.

(** ** The recorded errors *)

Lemma call_errors now remote user count st results st' :
  get_user_tweets now remote user count st = (results, st') →
  ∃ new,
    errors (stats st') = errors (stats st) ++ new
    ∧ failed_accounts (stats st')
      = (failed_accounts (stats st) + length new)%nat
    ∧ Forall (λ e, ∃ error_msg, e = failure_entry user error_msg) new.
Proof. no_parsers.
  unfold get_user_tweets. intros Hrun.
  apply attempts_outcome in Hrun
    as [[Hfailed Herrors]|(_ & Hfailed & _ & error_msg & Herrors)].
  - exists []. rewrite app_nil_r. simpl. split_and!; [done|lia|by constructor].
  - exists [failure_entry user error_msg]. simpl.
    split_and!; [done|lia|]. apply Forall_cons_2; [by exists error_msg|].
    by constructor.
Qed.

Lemma run_tasks_errors now remote usernames count completion slots st :
  let out := foldl (run_task now remote usernames count) (slots, st)
               completion in
  ∃ new,
    errors (stats out.2) = errors (stats st) ++ new
    ∧ failed_accounts (stats out.2)
      = (failed_accounts (stats st) + length new)%nat
    ∧ Forall (λ e, ∃ user error_msg,
                     user ∈ usernames ∧ e = failure_entry user error_msg) new.
Proof. no_parsers.
  revert slots st.
  induction completion as [|j rest IH]; intros slots st; cbn zeta.
  { exists []. rewrite app_nil_r. simpl. split_and!; [done|lia|by constructor]. }
  cbn [foldl]. rewrite run_task_step.
  destruct (usernames !! j) as [u|] eqn:Hu; [|apply IH].
  destruct (get_user_tweets (now j) (remote j) u count st) as [tweets st1]
    eqn:Hrun.
  apply call_errors in Hrun as (new1 & He1 & Hf1 & Hfor1).
  cbn [fst snd].
  destruct (IH (<[j:=Some tweets]> slots)
              (emit [EvSleep (request_delay cfg)] st1))
    as (new2 & He2 & Hf2 & Hfor2).
  cbn zeta in He2, Hf2. simpl in He2, Hf2.
  exists (new1 ++ new2). split_and!.
  - rewrite He2, He1. by rewrite <- app_assoc.
  - rewrite Hf2, Hf1, length_app. lia.
  - apply Forall_app_2; [|done].
    eapply Forall_impl; [exact Hfor1|]. intros e [error_msg ->].
    exists u, error_msg. split; [by eapply list_elem_of_lookup_2|done].
Qed.

(** X22. The errors of a batch: [errors] only grows, by exactly as many
    entries as [failed_accounts] grows, and every new entry is the record
    [@user: message] of a submitted account; so a fetcher that starts with
    no failure and no error always holds as many errors as failed
    accounts. *)
Theorem errors_match_failures now remote usernames count completion st
    all_tweets st' :
  fetch_multiple_accounts now remote usernames count completion st
    = (all_tweets, st') →
  (∃ new,
     errors (stats st') = errors (stats st) ++ new
     ∧ failed_accounts (stats st')
       = (failed_accounts (stats st) + length new)%nat
     ∧ Forall (λ e, ∃ user error_msg,
                      user ∈ usernames ∧ e = failure_entry user error_msg) new)
  ∧ (length (errors (stats st)) = failed_accounts (stats st) →
     length (errors (stats st')) = failed_accounts (stats st')).
Proof. no_parsers.
  unfold fetch_multiple_accounts. intros Hrun.
  pose proof (run_tasks_errors now remote usernames count completion
    (replicate (length usernames) None)
    (with_stats (set_total_accounts (length usernames)) st)) as Herr.
  destruct (foldl _ _ completion) as [slots st1]. injection Hrun as <- <-.
  cbn zeta in Herr. simpl in Herr.
  destruct Herr as (new & He & Hf & Hfor).
  split; [by exists new|].
  intros Hinv. rewrite He, Hf, length_app. lia.
Qed.

End Fetcher.

(** * The caller *)

Lemma last_entries_suffix {A} n (l : list A) : last_entries n l `suffix_of` l.
Proof. apply suffix_drop. Qed.

Lemma last_entries_length {A} n (l : list A) :
  length (last_entries n l) = (n `min` length l)%nat.
Proof. unfold last_entries. rewrite length_drop. lia. Qed.

Lemma last_entries_snoc {A} n (l : list A) x :
  last (last_entries (S n) (l ++ [x])) = Some x.
Proof.
  unfold last_entries. rewrite length_app. simpl.
  rewrite drop_app_le by lia. by rewrite last_snoc.
Qed.

Lemma last_entries_app {A} n (l l' : list A) :
  last_entries n (last_entries n l ++ l') = last_entries n (l ++ l').
Proof.
  unfold last_entries. rewrite !length_app, length_drop.
  destruct (decide (length l ≤ n)%nat) as [Hle|Hgt].
  - replace (length l - n)%nat with 0%nat by lia. simpl.
    by rewrite Nat.sub_0_r.
  - replace (length l - (length l - n) + length l' - n)%nat
      with (length l')%nat by lia.
    replace (length l + length l' - n)%nat
      with ((length l - n) + length l')%nat by lia.
    rewrite <- drop_drop.
    by rewrite (drop_app_le l l' (length l - n)) by lia.
Qed.

Lemma save_stats_written section now stats disk old :
  enable_stats section ≠ Some false →
  stats_path section ∉ unwritable disk →
  files disk !! stats_path section = None ∧ old = []
  ∨ files disk !! stats_path section = Some (FC_entries old) →
  _save_stats (Some section) now stats disk
  = write_stats (stats_path section)
      (last_entries 30 (old ++ [ {| timestamp := now; entry_stats := stats |} ]))
      disk.
Proof.
  intros Hon Hw Hfile. unfold _save_stats.
  destruct (enable_stats section) as [[]|]; [|done|]; simpl;
    (destruct (decide _) as [|_]; [done|]);
    by destruct Hfile as [[-> ->]| ->].
Qed.

(** X17. One save on a healthy statistics file (saving not switched off,
    the path writable, the file absent or a JSON array): the file then
    holds the end of the old entries followed by the new one, at most 30
    entries, the new entry last; the other statistics files are as
    before. *)
Theorem save_stats_keeps_recent section now stats disk old :
  enable_stats section ≠ Some false →
  stats_path section ∉ unwritable disk →
  files disk !! stats_path section = None ∧ old = []
  ∨ files disk !! stats_path section = Some (FC_entries old) →
  let stats_entry := {| timestamp := now; entry_stats := stats |} in
  ∃ kept,
    _save_stats (Some section) now stats disk
    = {| files := <[stats_path section := FC_entries kept]> (files disk);
         unwritable := unwritable disk |}
    ∧ kept `suffix_of` old ++ [stats_entry]
    ∧ length kept = (30 `min` (length old + 1))%nat
    ∧ last kept = Some stats_entry.
Proof.
  intros Hon Hw Hfile stats_entry.
  exists (last_entries 30 (old ++ [stats_entry])).
  rewrite (save_stats_written section now stats disk old) by done.
  split_and!; [done|apply last_entries_suffix| |apply last_entries_snoc].
  rewrite last_entries_length, length_app. simpl. lia.
Qed.

(** X18. Saving run after run on a healthy statistics file trims as if
    once: after at least one save the file holds the last 30 of the old
    entries followed by the entries of all the runs, in their order. *)
Theorem repeated_saves_keep_last_30 section (runs : list (Z * Stats)) disk old :
  enable_stats section ≠ Some false →
  stats_path section ∉ unwritable disk →
  files disk !! stats_path section = None ∧ old = []
  ∨ files disk !! stats_path section = Some (FC_entries old) →
  runs ≠ [] →
  files (foldl (λ d run, _save_stats (Some section) run.1 run.2 d) disk runs)
    !! stats_path section
  = Some (FC_entries
            (last_entries 30
               (old ++ map (λ run, {| timestamp := run.1;
                                      entry_stats := run.2 |}) runs))).
Proof.
  intros Hon Hw Hfile Hruns.
  destruct runs as [|run runs]; [done|]. clear Hruns. cbn [foldl map].
  rewrite (save_stats_written section run.1 run.2 disk old) by done.
  clear Hfile.
  set (stats_entry := {| timestamp := run.1; entry_stats := run.2 |}).
  replace (old ++ stats_entry :: map _ runs)
    with ((old ++ [stats_entry])
          ++ map (λ run, {| timestamp := run.1; entry_stats := run.2 |}) runs)
    by by rewrite <- app_assoc.
  generalize (old ++ [stats_entry]). clear old stats_entry run.
  revert disk Hw. induction runs as [|run runs IH]; intros disk Hw held.
  - simpl. by rewrite app_nil_r, lookup_insert_eq.
  - cbn [foldl map].
    rewrite (save_stats_written section run.1 run.2 _ (last_entries 30 held));
      [|done|done|right; simpl; by rewrite lookup_insert_eq].
    unfold write_stats at 1. simpl. rewrite insert_insert_eq, last_entries_app.
    change {| files := <[stats_path section:=FC_entries ?c]> (files disk);
              unwritable := unwritable disk |}
      with (write_stats (stats_path section) c disk).
    rewrite IH by done. by rewrite <- app_assoc.
Qed.

Section Caller.

Variables strptime_twitter strptime_ymd_hms : string → option Z.
Variable sort_type_error : string.
Variable set_order : gset string → list string.


End Caller.

(** * The fetcher on sample batches

    The parameters are the strict readers of the two time formats, the
    text of the [TypeError] and the order of [elements] for sets. *)

Local Abbreviation in_order := (λ s : gset string, elements s).
Local Abbreviation run_merge_threads :=
  (_merge_threads str_datetime_type_error in_order).
Local Abbreviation run_hydrate := (hydrate str_datetime_type_error).
Local Abbreviation run_fallback :=
  (_fallback_thread_from_batch str_datetime_type_error).
Local Abbreviation run_scan_tweets := (scan_tweets strict_twitter strict_ymd_hms).
Local Abbreviation run_process_tweets :=
  (process_tweets strict_twitter strict_ymd_hms str_datetime_type_error in_order).
Local Abbreviation run_attempt_once :=
  (run_attempt strict_twitter strict_ymd_hms str_datetime_type_error in_order).
Local Abbreviation run_attempts :=
  (attempts strict_twitter strict_ymd_hms str_datetime_type_error in_order).
Local Abbreviation run_get_user_tweets :=
  (get_user_tweets strict_twitter strict_ymd_hms str_datetime_type_error in_order).
Local Abbreviation run_fetch_multiple_accounts :=
  (fetch_multiple_accounts strict_twitter strict_ymd_hms
     str_datetime_type_error in_order).

Lemma in_order_perm : ∀ s : gset string, in_order s ≡ₚ elements s.
Proof. done. Qed.

(** The example of the specification: B answers A, C answers B, the remote
    thread request fails; the local fallback joins the three texts in time
    order under the id of A. *)
Example thread_abc_merged :
  (run_get_user_tweets default_config Sample.now
     (λ _, FR_tweets Sample.thread_abc Sample.thread_api_down)
     "alice" 5 Sample.start).1
  = [ {| username := "alice";
         text := "a" +:+ thread_separator +:+ "b" +:+ thread_separator +:+ "c";
         created_at := "2018-10-11 04:21";
         likes := 1; retweets := 0;
         url := "https://twitter.com/alice/status/100";
         is_thread := Some true; thread_length := Some 3%nat |} ].
Proof. vm_compute. reflexivity. Qed.

(** The two readers agree with the formatter on the sample times. *)
Example sample_times :
  strict_twitter "Wed Oct 10 20:19:24 +0000 2018" = Some (1539202764 * 1000000)
  ∧ strict_ymd_hms "2018-10-10 22:00:00" = Some Sample.now
  ∧ beijing_time_str (1539202764 * 1000000) = "2018-10-11 04:19"
  ∧ strftime_ymd_hm (951782400 * 1000000) = "2000-02-29 00:00".
Proof. vm_compute. done. Qed.

(** Rate-limit errors at every attempt: three sleeps of 30, 60 and 90, then
    one recorded failure. *)
Example retries_exhausted :
  run_get_user_tweets default_config Sample.now Sample.always_rate_limited
    "alice" 5 Sample.start
  = ([], {| stats := add_failure "@alice: Rate limit exceeded" empty_stats;
            trace := [EvGetTweets "alice" 5; EvSleep 30;
                      EvGetTweets "alice" 5; EvSleep 60;
                      EvGetTweets "alice" 5; EvSleep 90;
                      EvGetTweets "alice" 5] |}).
Proof. vm_compute. reflexivity. Qed.

(** C8 on the batch A, B, C: the walk from C. *)
Lemma root_walk_terminates_witness :
  let rtp := (find_self_replies (build_tweet_map Sample.thread_abc)
                Sample.thread_abc).2 in
  OD.get "102" rtp = Some "101"
  ∧ ∃ e, walk (length Sample.thread_abc) rtp {["102"]} "101" = Some e
         ∧ resolve_edge rtp "102" "101" = we_root e
         ∧ (S (we_lookups e) ≤ length Sample.thread_abc)%nat
         ∧ size (we_visited e) = S (we_lookups e)
         ∧ (OD.get (we_root e) rtp = None ∨ we_root e ∈ we_visited e).
Proof.
  split; [vm_compute; reflexivity|].
  apply (root_walk_terminates Sample.thread_abc "102" "101").
  vm_compute; reflexivity.
Defined.





(** The sort compares the timestamps as they are.  Two timestamps in the
    textual format are compared as text: the answer of Thursday 1 November
    is recorded before the tweet of Wednesday 31 October that it answers,
    although the source means to sort by time; for such timestamps no
    order is stated above. *)
Example fallback_textual_order :
  let raw := Sample.turn_of_month in
  let tweet_map := build_tweet_map raw in
  let rtp := (find_self_replies tweet_map raw).2 in
  creation_time strict_twitter strict_ymd_hms ("100", Sample.tweet_wed)
    = Some (1541030340 * us_per_second)
  ∧ creation_time strict_twitter strict_ymd_hms ("101", Sample.tweet_thu)
    = Some (1541030460 * us_per_second)
  ∧ (run_fallback "100" tweet_map rtp ∅ Sample.start).1.2 !! "100"
    = Some ["b"; "a"].
Proof. split_and!; vm_compute; reflexivity. Qed.



(** C5 with the default configuration: two rate-limit errors, then the
    batch A, B. *)
Lemma rate_limit_backoff_witness :
  let remote := Sample.rate_limited_twice Sample.thread_ab in
  let out := run_process_tweets default_config "alice"
               (cutoff_date default_config Sample.now) Sample.thread_ab
               Sample.thread_api_down
               (emit [EvGetTweets "alice" 5; EvSleep 30;
                      EvGetTweets "alice" 5; EvSleep 60;
                      EvGetTweets "alice" 5] Sample.start) in
  let results := match out.1 with inr r => r | inl _ => [] end in
  (retry_on_rate_limit default_config = true
   ∧ is_rate_limit "429 Too Many Requests" = true
   ∧ 2 ≤ max_retries default_config
   ∧ out = (inr results, out.2))
  ∧ run_get_user_tweets default_config Sample.now remote "alice" 5 Sample.start
    = (results, out.2)
  ∧ successful_accounts (stats out.2) = 1%nat
  ∧ errors (stats out.2) = []
  ∧ failed_accounts (stats out.2) = 0%nat.
Proof.
  split; [split_and!; vm_compute; done|].
  destruct (proj2 (rate_limit_backoff strict_twitter strict_ymd_hms
              str_datetime_type_error in_order default_config
              (Sample.rate_limited_twice Sample.thread_ab) "alice" 5 eq_refl)
            Sample.now Sample.start "429 Too Many Requests"
            "429 Too Many Requests" Sample.thread_ab Sample.thread_api_down
            _ _ eq_refl ltac:(vm_compute; reflexivity) eq_refl
            ltac:(vm_compute; reflexivity) eq_refl ltac:(vm_compute; discriminate)
            ltac:(vm_compute; reflexivity))
    as (Hget & Hs & He & Hf & _).
  split_and!; [exact Hget|exact Hs|exact He|exact Hf].
Defined.

(** C5 as stated fails: with [retry_on_rate_limit] off, a rate-limit error
    at attempt 0 (of up to 3 retries) is followed by no sleep and no second
    attempt; the failure is recorded at once. *)
Lemma no_retry_counterexample :
  let remote := Sample.rate_limited_twice Sample.thread_ab in
  remote 0%nat = FR_raise "429 Too Many Requests"
  ∧ is_rate_limit "429 Too Many Requests" = true
  ∧ 0 < max_retries Sample.no_retry_config
  ∧ run_get_user_tweets Sample.no_retry_config Sample.now remote "alice" 5
      Sample.start
    = ([], {| stats := add_failure "@alice: 429 Too Many Requests" empty_stats;
              trace := [EvGetTweets "alice" 5] |}).
Proof. split_and!; vm_compute; done. Qed.

(** C6 on an account that does not exist. *)
Lemma failure_recorded_witness :
  let st1 := emit [EvGetTweets "ghost" 5] Sample.start in
  (run_attempt_once default_config Sample.unknown_user "ghost" 5 0 0 Sample.start
     = (inl "User not found", st1)
   ∧ is_rate_limit "User not found" = false)
  ∧ ∃ st', run_attempts default_config Sample.unknown_user "ghost" 5 0 4 0
             Sample.start = ([], st')
    ∧ failed_accounts (stats st') = 1%nat
    ∧ errors (stats st') = ["@ghost: User not found"]
    ∧ successful_accounts (stats st') = 0%nat
    ∧ total_tweets (stats st') = 0%nat
    ∧ trace st' = trace st1.
Proof.
  split; [split; vm_compute; reflexivity|].
  apply (proj1 (failure_recorded strict_twitter strict_ymd_hms
                  str_datetime_type_error in_order default_config
                  Sample.unknown_user "ghost" 5)
           0 3%nat 0%nat Sample.start "User not found");
    [vm_compute; reflexivity|left; vm_compute; reflexivity].
Defined.

(** C9 on two accounts whose tasks finish in the opposite order. *)
Lemma submission_order_witness :
  let remote := λ i : nat,
    match i with
    | O => λ _ : nat, FR_tweets Sample.thread_abc Sample.thread_api_down
    | _ => λ _ : nat, FR_tweets Sample.mixed_ages Sample.thread_api_down
    end in
  [1; 0]%nat ≡ₚ seq 0 (length ["alice"; "bob"])
  ∧ (run_fetch_multiple_accounts default_config (λ _, Sample.now) remote
       ["alice"; "bob"] 5 [1; 0]%nat Sample.start).1
    = concat (imap (λ i user,
                      (run_get_user_tweets default_config Sample.now (remote i)
                         user 5 Sample.start).1) ["alice"; "bob"]).
Proof.
  split; [apply perm_swap|].
  apply (submission_order strict_twitter strict_ymd_hms str_datetime_type_error
           in_order default_config (λ _, Sample.now) _ ["alice"; "bob"] 5
           [1; 0]%nat Sample.start (λ _, Sample.start)).
  apply perm_swap.
Defined.


(** C1 at a failing input.  The budget is one thread request; the batch
    has two threads and every thread request raises.  Both requests are
    made, neither is followed by a sleep, and the second one is made
    although the budget of one was used by the first. *)
Theorem budget_ignores_failures :
  let raw := Sample.two_threads in
  let results := (run_scan_tweets "alice" 0 raw [] 0).1 in
  let out := run_merge_threads Sample.one_fetch_config Sample.thread_api_down
               "alice" results raw Sample.start in
  max_thread_fetches Sample.one_fetch_config = 1
  ∧ length (filter (λ ev, Sample.is_request ev) (trace out.2)) = 2%nat
  ∧ length (filter (λ ev, Sample.is_sleep ev) (trace out.2)) = 0%nat
  ∧ trace out.2 = [EvGetTweetById "100"; EvGetTweetById "200"].
Proof. split_and!; vm_compute; reflexivity. Qed.

(** X1 on two threads with a budget of one: the first request is answered
    and uses the budget, the second root is not asked for. *)
Lemma thread_requests_within_budget_witness :
  let raw := Sample.two_threads in
  let tweet_map := build_tweet_map raw in
  let rtp := (find_self_replies tweet_map raw).2 in
  let roots := elements (compute_root_ids rtp) in
  let run := run_hydrate Sample.one_fetch_config Sample.thread_api_three
               tweet_map rtp roots 0 ∅ Sample.start in
  (roots = ["100"; "200"]
   ∧ run = (None, run.1.2,
            {| stats := stats run.2;
               trace := [EvGetTweetById "100"; EvSleep 5] |}))
  ∧ ∃ asked,
      asked `prefix_of` roots
      ∧ trace run.2
        = trace Sample.start
          ++ hydration_events Sample.one_fetch_config Sample.thread_api_three
               asked
      ∧ Z.of_nat (length (filter (λ r, answered Sample.thread_api_three r)
                            asked))
        ≤ Z.max 0 (max_thread_fetches Sample.one_fetch_config - 0).
Proof.
  intros raw tweet_map rtp roots run.
  split; [split; vm_compute; reflexivity|].
  apply (thread_requests_within_budget str_datetime_type_error
           Sample.one_fetch_config Sample.thread_api_three tweet_map rtp roots
           0 ∅ Sample.start None run.1.2 run.2).
  vm_compute; reflexivity.
Defined.

(** X2 on the batch A, B, C with a budget of zero. *)
Lemma no_budget_no_merging_witness :
  let results := (run_scan_tweets "alice" 0 Sample.thread_abc [] 0).1 in
  max_thread_fetches Sample.no_budget_config ≤ 0
  ∧ run_merge_threads Sample.no_budget_config Sample.thread_api_three "alice"
      results Sample.thread_abc Sample.start
    = (inr results, Sample.start).
Proof.
  split; [vm_compute; discriminate|].
  apply (no_budget_no_merging str_datetime_type_error in_order
           Sample.no_budget_config Sample.thread_api_three "alice" _
           Sample.thread_abc Sample.start).
  vm_compute; discriminate.
Defined.

(** X3 on an answer to somebody else and a plain tweet. *)
Lemma no_self_replies_no_merging_witness :
  let raw := Sample.no_self_replies in
  let results := (run_scan_tweets "alice" 0 raw [] 0).1 in
  (∀ t parent_id, t ∈ raw →
     ¬ is_self_reply_to (build_tweet_map raw) t parent_id)
  ∧ run_merge_threads default_config Sample.thread_api_three "alice" results
      raw Sample.start
    = (inr results, Sample.start).
Proof.
  assert (∀ t parent_id, t ∈ Sample.no_self_replies →
            ¬ is_self_reply_to (build_tweet_map Sample.no_self_replies) t
                parent_id) as Hnone.
  { intros t parent_id Ht (Hreply & _ & _ & [Hmeta|[Hmeta _]]);
      apply elem_of_cons in Ht as [->|Ht];
      [|apply elem_of_cons in Ht as [->|Ht]; [|by apply elem_of_nil in Ht]
       | |apply elem_of_cons in Ht as [->|Ht]; [|by apply elem_of_nil in Ht]];
      vm_compute in Hreply, Hmeta; discriminate. }
  split; [exact Hnone|].
  apply (no_self_replies_no_merging str_datetime_type_error in_order
           default_config Sample.thread_api_three "alice" _
           Sample.no_self_replies Sample.start Hnone).
Defined.

(** X4 and X5 on the batch A, B, C with the thread request failing: one
    merged post out of three tweets. *)
Lemma result_within_batch_witness :
  let remote := λ _ : nat, FR_tweets Sample.thread_abc Sample.thread_api_down in
  let run := run_get_user_tweets default_config Sample.now remote "alice" 5
               Sample.start in
  (length run.1 = 1%nat ∧ run = (run.1, run.2))
  ∧ (run.1 = []
     ∨ ∃ k tweets thread_api,
         remote k = FR_tweets tweets thread_api
         ∧ (length run.1 ≤ length tweets)%nat)
  ∧ ∀ p, p ∈ run.1 →
      username p = "alice" ∧ ∃ tweet_id, url p = status_url "alice" tweet_id.
Proof.
  intros remote run.
  split; [split; vm_compute; reflexivity|].
  apply (result_within_batch strict_twitter strict_ymd_hms
           str_datetime_type_error in_order default_config Sample.now remote
           "alice" 5 Sample.start run.1 run.2).
  vm_compute; reflexivity.
Defined.

Lemma call_accounting_witness :
  let remote := λ _ : nat, FR_tweets Sample.thread_abc Sample.thread_api_down in
  let run := run_get_user_tweets default_config Sample.now remote "alice" 5
               Sample.start in
  (length run.1 = 1%nat ∧ run = (run.1, run.2))
  ∧ total_accounts (stats run.2) = total_accounts (stats Sample.start)
  ∧ total_tweets (stats run.2)
    = (total_tweets (stats Sample.start) + length run.1)%nat
  ∧ (0 ≤ max_retries default_config →
     (successful_accounts (stats run.2) + failed_accounts (stats run.2)
      = successful_accounts (stats Sample.start)
        + failed_accounts (stats Sample.start) + 1)%nat)
  ∧ (max_retries default_config < 0 → run.1 = [] ∧ run.2 = Sample.start).
Proof.
  intros remote run.
  split; [split; vm_compute; reflexivity|].
  apply (call_accounting strict_twitter strict_ymd_hms
           str_datetime_type_error in_order default_config Sample.now remote
           "alice" 5 Sample.start run.1 run.2).
  vm_compute; reflexivity.
Defined.

(** X6 and X16 on two accounts whose tasks finish in the opposite order. *)
Lemma batch_accounting_witness :
  let run := run_fetch_multiple_accounts default_config (λ _, Sample.now)
               Sample.two_accounts ["alice"; "bob"] 5 [1; 0]%nat
               Sample.start in
  ([1; 0]%nat ≡ₚ seq 0 (length ["alice"; "bob"])
   ∧ 0 ≤ max_retries default_config
   ∧ length run.1 = 3%nat
   ∧ run = (run.1, run.2))
  ∧ total_accounts (stats run.2) = length ["alice"; "bob"]
  ∧ total_tweets (stats run.2)
    = (total_tweets (stats Sample.start) + length run.1)%nat
  ∧ (successful_accounts (stats run.2) + failed_accounts (stats run.2)
     = successful_accounts (stats Sample.start)
       + failed_accounts (stats Sample.start) + length ["alice"; "bob"])%nat.
Proof.
  intros run.
  split; [split_and!; [apply perm_swap|vm_compute; discriminate|
                       vm_compute; reflexivity|vm_compute; reflexivity]|].
  apply (batch_accounting strict_twitter strict_ymd_hms
           str_datetime_type_error in_order default_config (λ _, Sample.now)
           Sample.two_accounts ["alice"; "bob"] 5 [1; 0]%nat Sample.start
           run.1 run.2);
    [apply perm_swap|vm_compute; discriminate|vm_compute; reflexivity].
Defined.


(** X7 on two rate-limit errors followed by the batch A, B. *)
Lemma retry_trace_shape_witness :
  let remote := Sample.rate_limited_twice Sample.thread_ab in
  let run := run_get_user_tweets default_config Sample.now remote "alice" 5
               Sample.start in
  (run = (run.1, run.2)
   ∧ 0 ≤ max_retries default_config
   ∧ trace run.2
     = [EvGetTweets "alice" 5; EvSleep 30; EvGetTweets "alice" 5; EvSleep 60;
        EvGetTweets "alice" 5; EvGetTweetById "100"])
  ∧ ∃ rounds last,
      trace run.2 = trace Sample.start ++ retry_rounds "alice" 5 0 rounds
                    ++ EvGetTweets "alice" 5 :: last
      ∧ Z.of_nat (length rounds) ≤ max_retries default_config
      ∧ Forall (Forall (is_hydration_event default_config)) rounds
      ∧ Forall (is_hydration_event default_config) last
      ∧ Z.of_nat (length (filter (λ ev, is_timeline_request ev)
                            (retry_rounds "alice" 5 0 rounds
                             ++ EvGetTweets "alice" 5 :: last)))
        ≤ max_retries default_config + 1.
Proof.
  intros remote run.
  split; [split_and!; [vm_compute; reflexivity|vm_compute; discriminate|
                       vm_compute; reflexivity]|].
  apply (retry_trace_shape strict_twitter strict_ymd_hms
           str_datetime_type_error in_order default_config Sample.now remote
           "alice" 5 Sample.start run.1 run.2);
    [vm_compute; reflexivity|vm_compute; discriminate].
Defined.

(** X8 on the tweet A. *)
Lemma url_id_round_trip_witness :
  Forall (λ c, c ≠ "/"%char) (list_ascii_of_string (tw_id Sample.tweet_a))
  ∧ last_segment (status_url "alice" (tw_id Sample.tweet_a))
    = tw_id Sample.tweet_a
  ∧ last_segment (url (tweet_data_of strict_twitter strict_ymd_hms "alice"
                         Sample.tweet_a))
    = tw_id Sample.tweet_a.
Proof.
  assert (Forall (λ c, c ≠ "/"%char)
            (list_ascii_of_string (tw_id Sample.tweet_a))) as Hid
    by (vm_compute; repeat constructor; discriminate).
  split; [exact Hid|].
  apply (url_id_round_trip strict_twitter strict_ymd_hms "alice"
           Sample.tweet_a Hid).
Defined.

(** X12 on two threads whose roots the batch does not hold: the remote
    thread is recorded for both. *)
Lemma threads_detected_counts_records_witness :
  let raw := Sample.two_threads in
  let tweet_map := build_tweet_map raw in
  let rtp := (find_self_replies tweet_map raw).2 in
  let run := run_hydrate default_config Sample.thread_api_three tweet_map rtp
               (in_order (compute_root_ids rtp)) 0 ∅ Sample.start in
  (run = (None, run.1.2, run.2) ∧ size run.1.2 = 2%nat)
  ∧ (∀ r texts, run.1.2 !! r = Some texts → (0 < length texts)%nat)
  ∧ threads_detected (stats run.2)
    = (threads_detected (stats Sample.start) + size run.1.2)%nat.
Proof.
  split; [split; vm_compute; reflexivity|].
  apply (threads_detected_counts_records str_datetime_type_error in_order
           in_order_perm default_config Sample.thread_api_three
           (build_tweet_map Sample.two_threads)
           (find_self_replies (build_tweet_map Sample.two_threads)
              Sample.two_threads).2 Sample.start None).
  vm_compute; reflexivity.
Defined.

(** X13 on the batch A, B, whose remote thread has three entries. *)
Lemma remote_thread_wins_witness :
  let raw := Sample.thread_ab in
  let tweet_map := build_tweet_map raw in
  let rtp := (find_self_replies tweet_map raw).2 in
  let roots := elements (compute_root_ids rtp) in
  let thread := Some [Some "a"; Some "b"; Some "c"] in
  let run := run_hydrate default_config Sample.thread_api_three tweet_map rtp
               roots 0 ∅ Sample.start in
  (run = (None, run.1.2, run.2)
   ∧ NoDup roots
   ∧ Z.of_nat (length roots) ≤ max_thread_fetches default_config - 0
   ∧ "100" ∈ roots
   ∧ Sample.thread_api_three "100" = TR_tweet thread
   ∧ remote_texts thread ≠ [])
  ∧ run.1.2 !! "100" = Some ["a"; "b"; "c"].
Proof.
  assert (elements (compute_root_ids
            (find_self_replies (build_tweet_map Sample.thread_ab)
               Sample.thread_ab).2) = ["100"]) as Hroots
    by (vm_compute; reflexivity).
  cbn zeta. rewrite Hroots.
  split; [split_and!; [vm_compute; reflexivity|apply NoDup_singleton|
                       vm_compute; discriminate|constructor|
                       reflexivity|discriminate]|].
  apply (remote_thread_wins str_datetime_type_error default_config
           Sample.thread_api_three (build_tweet_map Sample.thread_ab)
           (find_self_replies (build_tweet_map Sample.thread_ab)
              Sample.thread_ab).2 ["100"] 0 ∅ Sample.start _
           (with_stats add_thread_detected
              (emit [EvGetTweetById "100"; EvSleep 5] Sample.start))
           "100" (Some [Some "a"; Some "b"; Some "c"]));
    [vm_compute; reflexivity|apply NoDup_singleton|vm_compute; discriminate|
     constructor|reflexivity|discriminate].
Defined.

(** X15 with the default configuration. *)
Lemma retries_exhausted_trace_witness :
  (retry_on_rate_limit default_config = true
   ∧ 0 ≤ max_retries default_config
   ∧ ∀ i, Z.of_nat i ≤ max_retries default_config →
          ∃ msg, Sample.always_rate_limited i = FR_raise msg
                 ∧ is_rate_limit msg = true)
  ∧ ∃ msg,
      Sample.always_rate_limited (Z.to_nat (max_retries default_config))
        = FR_raise msg
      ∧ run_get_user_tweets default_config Sample.now
          Sample.always_rate_limited "alice" 5 Sample.start
        = ([], {| stats := add_failure ("@" +:+ "alice" +:+ ": " +:+ msg)
                             (stats Sample.start);
                  trace := trace Sample.start
                           ++ retry_rounds "alice" 5 0
                                (replicate
                                   (Z.to_nat (max_retries default_config)) [])
                           ++ [EvGetTweets "alice" 5] |}).
Proof.
  assert (∀ i, Z.of_nat i ≤ max_retries default_config →
            ∃ msg, Sample.always_rate_limited i = FR_raise msg
                   ∧ is_rate_limit msg = true) as Hall
    by (intros i _; exists "Rate limit exceeded"; split; vm_compute; reflexivity).
  split; [split_and!; [reflexivity|vm_compute; discriminate|exact Hall]|].
  apply (retries_exhausted_trace strict_twitter strict_ymd_hms
           str_datetime_type_error in_order default_config Sample.now
           Sample.always_rate_limited "alice" 5 Sample.start eq_refl);
    [vm_compute; discriminate|exact Hall].
Defined.

(** X17 on a file that holds the entries of 31 runs: the two oldest go. *)
Lemma save_stats_keeps_recent_witness :
  let stats_entry := {| timestamp := 31; entry_stats := empty_stats |} in
  (enable_stats Sample.monitoring_defaults ≠ Some false
   ∧ (stats_path Sample.monitoring_defaults
        ∉ unwritable Sample.disk_with_history)
   ∧ files Sample.disk_with_history !! stats_path Sample.monitoring_defaults
     = Some (FC_entries Sample.history))
  ∧ ∃ kept,
      _save_stats (Some Sample.monitoring_defaults) 31 empty_stats
        Sample.disk_with_history
      = {| files := <[stats_path Sample.monitoring_defaults := FC_entries kept]>
                      (files Sample.disk_with_history);
           unwritable := unwritable Sample.disk_with_history |}
      ∧ kept `suffix_of` Sample.history ++ [stats_entry]
      ∧ length kept = (30 `min` (length Sample.history + 1))%nat
      ∧ last kept = Some stats_entry.
Proof.
  assert (stats_path Sample.monitoring_defaults
            ∉ unwritable Sample.disk_with_history) as Hw
    by apply not_elem_of_empty.
  split; [split_and!; [discriminate|exact Hw|reflexivity]|].
  apply (save_stats_keeps_recent Sample.monitoring_defaults 31 empty_stats
           Sample.disk_with_history Sample.history);
    [discriminate|exact Hw|right; reflexivity].
Defined.

(** X18 on two runs and a disk without files. *)
Lemma repeated_saves_keep_last_30_witness :
  let runs := [(1, empty_stats); (2, add_success 3 empty_stats)] in
  (enable_stats Sample.monitoring_defaults ≠ Some false
   ∧ (stats_path Sample.monitoring_defaults
        ∉ unwritable Sample.empty_disk)
   ∧ files Sample.empty_disk !! stats_path Sample.monitoring_defaults = None
   ∧ runs ≠ [])
  ∧ files (foldl (λ d run, _save_stats (Some Sample.monitoring_defaults)
                             run.1 run.2 d) Sample.empty_disk runs)
      !! stats_path Sample.monitoring_defaults
    = Some (FC_entries
              (last_entries 30
                 ([] ++ map (λ run, {| timestamp := run.1;
                                       entry_stats := run.2 |}) runs))).
Proof.
  assert (stats_path Sample.monitoring_defaults
            ∉ unwritable Sample.empty_disk) as Hw
    by apply not_elem_of_empty.
  split; [split_and!; [discriminate|exact Hw|reflexivity|discriminate]|].
  apply (repeated_saves_keep_last_30 Sample.monitoring_defaults
           [(1, empty_stats); (2, add_success 3 empty_stats)] Sample.empty_disk
           []);
    [discriminate|exact Hw|left; split; reflexivity|discriminate].
Defined.


(** X21 on the thread A, B, C followed by a plain tweet. *)
Lemma plain_posts_kept_witness :
  let raw := Sample.thread_abc ++ [Sample.tweet_untimed] in
  let tweet_map := build_tweet_map raw in
  let rtp := (find_self_replies tweet_map raw).2 in
  let results := (run_scan_tweets "alice" 0 raw [] 0).1 in
  let run := run_hydrate default_config Sample.thread_api_down tweet_map rtp
               (in_order (compute_root_ids rtp)) 0 ∅ Sample.start in
  (run = (None, run.1.2, run.2)
   ∧ Forall (λ p, is_thread p = None) results
   ∧ length results = 4%nat)
  ∧ ∃ out,
      run_merge_threads default_config Sample.thread_api_down "alice" results
        raw Sample.start = (inr out, run.2)
      ∧ filter (λ o, is_thread o = None) out
        = filter (λ p, run.1.2 !! chain_root_of rtp p = None) results.
Proof.
  intros raw tweet_map rtp results run.
  assert (Forall (λ p, is_thread p = None) results) as Hplain
    by (vm_compute; repeat constructor).
  split; [split_and!; [vm_compute; reflexivity|exact Hplain|
                       vm_compute; reflexivity]|].
  apply (plain_posts_kept str_datetime_type_error in_order in_order_perm
           default_config Sample.thread_api_down "alice" results raw
           Sample.start run.1.2 run.2);
    [vm_compute; reflexivity|exact Hplain].
Defined.

(** X22 on an account that does not exist and an account with tweets. *)
Lemma errors_match_failures_witness :
  let remote := λ index : nat,
    match index with
    | O => Sample.unknown_user
    | _ => λ _ : nat, FR_tweets Sample.mixed_ages Sample.thread_api_down
    end in
  let run := run_fetch_multiple_accounts default_config (λ _, Sample.now)
               remote ["ghost"; "bob"] 5 [0; 1]%nat Sample.start in
  (run = (run.1, run.2)
   ∧ errors (stats run.2) = ["@ghost: User not found"])
  ∧ (∃ new,
       errors (stats run.2) = errors (stats Sample.start) ++ new
       ∧ failed_accounts (stats run.2)
         = (failed_accounts (stats Sample.start) + length new)%nat
       ∧ Forall (λ e, ∃ user error_msg,
                        user ∈ ["ghost"; "bob"]
                        ∧ e = failure_entry user error_msg) new)
  ∧ (length (errors (stats Sample.start))
     = failed_accounts (stats Sample.start) →
     length (errors (stats run.2)) = failed_accounts (stats run.2)).
Proof.
  intros remote run.
  split; [split; vm_compute; reflexivity|].
  apply (errors_match_failures strict_twitter strict_ymd_hms
           str_datetime_type_error in_order default_config (λ _, Sample.now)
           remote ["ghost"; "bob"] 5 [0; 1]%nat Sample.start run.1 run.2).
  vm_compute; reflexivity.
Defined.
